(** * tectosaur: FMM interaction lists, bindings and BSR assembly

    A shallow embedding of the C++ sources
      - tectosaur/fmm/fmm_impl.hpp   (MatrixFreeOp, CompressedInteractionList,
                                      count_interactions, FMMConfig)
      - tectosaur/_fmm/_fmm.cpp      (check_shape, the KDTree, FMMConfig,
                                      FMMMat.eval and direct_eval bindings)
      - fast_assembly                (make_bsr_matrix)
    together with models, written from the specification, of the parts whose
    bodies are not among these files (the tree builder and the dual-tree
    traversal).

    Conventions.  C++ [int] is a 32-bit two's complement integer and [size_t]
    a 64-bit unsigned one; both are carried as [Z], with the wrap-around of
    every narrowing store written out ([to_int], [to_size]).  A [std::vector]
    or a numpy buffer is a [list]; [operator[]] outside the vector is
    undefined behaviour and shows up as [None].  Doubles that are only moved
    around are kept abstract; where the specification compares them they are
    exact rationals. *)

From Stdlib Require Import ZArith List Lia Bool String.
From Stdlib Require Import QArith Qminmax Lqa Reals Qreals Lra.
From Stdlib Require Import Permutation.
From stdpp Require Import base list gmap strings.

Local Open Scope Z_scope.

(** ** Machine integers *)

Module Machine.

Definition int_min : Z := - 2 ^ 31.
Definition int_max : Z := 2 ^ 31 - 1.
Definition size_max : Z := 2 ^ 64 - 1.

(** Conversion to [int]: reduction modulo 2^32 into [int_min .. int_max]. *)
Definition to_int (z : Z) : Z := (z + 2 ^ 31) mod 2 ^ 32 - 2 ^ 31.

(** Conversion to [size_t]: reduction modulo 2^64. *)
Definition to_size (z : Z) : Z := z mod 2 ^ 64.

Definition in_int (z : Z) : Prop := int_min <= z <= int_max.
Definition in_size (z : Z) : Prop := 0 <= z <= size_max.

(** [v[i]] for a signed index: defined only inside the vector. *)
Definition vec_at {A} (v : list A) (i : Z) : option A :=
  if i <? 0 then None else v !! Z.to_nat i.

(** [v[i] = x]: defined only inside the vector. *)
Definition store {A} (v : list A) (i : Z) (x : A) : option (list A) :=
  if (0 <=? i) && (i <? Z.of_nat (length v))
  then Some (<[Z.to_nat i := x]> v) else None.

(** [for (size_t i = 0; i < n; i++) body]: the state after [n] rounds is the
    body at [n - 1] applied to the state after [n - 1] rounds. *)
Fixpoint for_loop {S} (n : nat) (body : nat -> S -> option S) (s0 : S)
  : option S :=
  match n with
  | O => Some s0
  | Datatypes.S k => s ← for_loop k body s0; body k s
  end.

End Machine.
Import Machine.

(** ** Tree nodes

    The node type ([KDNode], [OctreeNode]) is declared in kdtree.hpp and
    octree.hpp, which are not among the files above; its fields are the ones
    the pybind binding of [KDNode] exports (_fmm.cpp:74-82), integers as in
    the data model of the specification.  [end] is a keyword, hence [end_]. *)

Module Geometry.

(** Modelled from the spec: the type [Ball], whose declaration (octree.hpp)
    is missing: a centre, one coordinate per dimension, and a radius (3,
    "Ball").  The scalar type is a parameter. *)
Record Ball (F : Type) := mkBall { center : list F; radius : F }.
Arguments mkBall {F} _ _.
Arguments center {F} _.
Arguments radius {F} _.

Record Node (F : Type) := mkNode {
  start : Z;
  end_ : Z;
  bounds : Ball F;
  is_leaf : bool;
  idx : Z;
  height : Z;
  depth : Z;
  children : list Z
}.
Arguments mkNode {F} _ _ _ _ _ _ _ _.
Arguments start {F} _.
Arguments end_ {F} _.
Arguments bounds {F} _.
Arguments is_leaf {F} _.
Arguments idx {F} _.
Arguments height {F} _.
Arguments depth {F} _.
Arguments children {F} _.

(** Number of points a node owns. *)
Definition n_points {F} (n : Node F) : Z := end_ n - start n.

End Geometry.
Import Geometry.

(** ** fmm/fmm_impl.hpp: MatrixFreeOp *)

Module MatrixFreeOp.

Record t := mk { obs_n_idx : list Z; src_n_idx : list Z }.

Definition empty : t := mk [] [].

(** The two [push_back]s of [insert]. *)
Definition push (op : t) (o s : Z) : t :=
  mk (obs_n_idx op ++ [o]) (src_n_idx op ++ [s]).

(** [MatrixFreeOp::insert] (fmm_impl.hpp:34-41). *)
Definition insert {F} (op : t) (obs_n src_n : Node F) : t :=
  if (end_ obs_n - start obs_n =? 0) || (end_ src_n - start src_n =? 0)
  then op
  else push op (idx obs_n) (idx src_n).

(** A run of [insert]s, in order. *)
Definition insert_all {F} (op : t) (pairs : list (Node F * Node F)) : t :=
  fold_left (fun acc p => insert acc (fst p) (snd p)) pairs op.

Definition both_nonempty {F} (p : Node F * Node F) : bool :=
  (0 <? n_points (fst p)) && (0 <? n_points (snd p)).

End MatrixFreeOp.

(** ** fmm/fmm_impl.hpp: CompressedInteractionList and count_interactions *)

Module Interactions.

Record CompressedInteractionList := mkCIL {
  obs_n_idxs : list Z;
  obs_src_starts : list Z;
  src_n_idxs : list Z
}.

Section Count.
Context {F : Type}.
Variables (list_ : CompressedInteractionList).
Variables (obs_nodes src_nodes : list (Node F)).
Variables (obs_surf src_surf : bool) (n_surf : Z).

(** [int n_obs = n_surf; if (!obs_surf) n_obs = n.end - n.start;] *)
Definition node_count (surf : bool) (nodes : list (Node F)) (n_idx : Z)
  : option Z :=
  if surf then Some n_surf
  else n ← vec_at nodes n_idx; Some (to_int (end_ n - start n)).

(** The body of the inner loop at [j], for the running [size_t n]. *)
Definition inner_body (n_obs : Z) (j : Z) (n : Z) : option Z :=
  src_n_idx ← vec_at (src_n_idxs list_) j;
  n_src ← node_count src_surf src_nodes src_n_idx;
  Some (to_size (n + to_int (n_obs * n_src))).

(** [for (int j = lo; j < hi; j++)]: [hi - lo] rounds when [lo < hi]. *)
Definition inner_loop (lo hi : Z) (n_obs : Z) (n : Z) : option Z :=
  for_loop (Z.to_nat (hi - lo))
           (fun k n => inner_body n_obs (lo + Z.of_nat k) n) n.

Definition outer_body (i : nat) (n : Z) : option Z :=
  obs_n_idx ← obs_n_idxs list_ !! i;
  n_obs ← node_count obs_surf obs_nodes obs_n_idx;
  lo ← obs_src_starts list_ !! i;
  hi ← obs_src_starts list_ !! (S i);
  inner_loop lo hi n_obs n.

(** [count_interactions] (fmm_impl.hpp:50-74). *)
Definition count_interactions : option Z :=
  for_loop (length (obs_n_idxs list_)) outer_body 0.

End Count.

End Interactions.

(** The same count as the documentation words it: the sum, over the entries
    [(i, j)] with [obs_src_starts[i] <= j < obs_src_starts[i+1]], of
    [n_obs * n_src]. *)

Module InteractionSum.
Import Interactions.

Definition sum_list (l : list Z) : Z := foldr Z.add 0 l.

(** The integers [lo, lo+1, ..., hi-1]. *)
Definition Zrange (lo hi : Z) : list Z :=
  map (fun k => lo + Z.of_nat k) (seq 0 (Z.to_nat (hi - lo))).

Section Sum.
Context {F : Type}.
Variables (list_ : CompressedInteractionList).
Variables (obs_nodes src_nodes : list (Node F)).
Variables (obs_surf src_surf : bool) (n_surf : Z).

(** Point count of node [i] of a tree. *)
Definition point_count (nodes : list (Node F)) (i : Z) : Z :=
  match vec_at nodes i with Some n => end_ n - start n | None => 0 end.

Definition n_obs_of (i : nat) : Z :=
  if obs_surf then n_surf
  else point_count obs_nodes (default 0 (obs_n_idxs list_ !! i)).

Definition n_src_of (j : Z) : Z :=
  if src_surf then n_surf
  else point_count src_nodes (default 0 (vec_at (src_n_idxs list_) j)).

Definition row_sum (i : nat) : Z :=
  sum_list (map (fun j => n_obs_of i * n_src_of j)
                (Zrange (default 0 (obs_src_starts list_ !! i))
                        (default 0 (obs_src_starts list_ !! S i)))).

Definition interaction_sum : Z :=
  sum_list (map row_sum (seq 0 (length (obs_n_idxs list_)))).

(** Every read of the two loops falls inside its vector and every [int]
    holds the value assigned to it. *)
Definition in_intb (z : Z) : bool := (int_min <=? z) && (z <=? int_max).

Definition node_okb (surf : bool) (nodes : list (Node F)) (i : Z) : bool :=
  surf || match vec_at nodes i with
          | Some n => in_intb (end_ n - start n)
          | None => false
          end.

Definition entry_okb (i : nat) (j : Z) : bool :=
  match vec_at (src_n_idxs list_) j with
  | Some s => node_okb src_surf src_nodes s
              && in_intb (n_obs_of i * n_src_of j)
  | None => false
  end.

Definition row_okb (i : nat) : bool :=
  match obs_n_idxs list_ !! i, obs_src_starts list_ !! i,
        obs_src_starts list_ !! S i with
  | Some o, Some lo, Some hi =>
      node_okb obs_surf obs_nodes o && forallb (entry_okb i) (Zrange lo hi)
  | _, _, _ => false
  end.

Definition readable : bool :=
  forallb row_okb (seq 0 (length (obs_n_idxs list_))).

End Sum.
End InteractionSum.

(** ** _fmm/_fmm.cpp: the pybind bindings *)

Module Binding.

(** A call either returns or throws [std::runtime_error(what)]. *)
Inductive Result (A : Type) : Type :=
| Ok (a : A)
| Throw (what : string).
Arguments Ok {A} _.
Arguments Throw {A} _.

#[export] Instance Result_ret : MRet Result := fun A a => Ok a.
#[export] Instance Result_bind : MBind Result := fun A B k m =>
  match m with Ok a => k a | Throw w => Throw w end.

(** A numpy array as its buffer request shows it: the shape (one entry per
    dimension) and the memory behind [ptr]. *)
Record NPArray (A : Type) := mkNPArray { shape : list Z; ptr : list A }.
Arguments mkNPArray {A} _ _.
Arguments shape {A} _.
Arguments ptr {A} _.

Definition ndim {A} (arr : NPArray A) : Z := Z.of_nat (length (shape arr)).

(** [buf.shape[k]]; read only after [ndim] has been checked. *)
Definition shape_at {A} (arr : NPArray A) (k : nat) : Z :=
  default 0 (shape arr !! k).

(** [check_shape] (_fmm.cpp:59-64); [||] does not read [shape[1]] when
    [ndim != 2]. *)
Definition check_shape {A} (arr : NPArray A) : Result unit :=
  if negb (ndim arr =? 2) then Throw "parameter requires n x 3 array."
  else if negb (shape_at arr 1 =? 3)
       then Throw "parameter requires n x 3 array."
       else Ok tt.

(** The shape [check_shape] lets through: two dimensions, three columns. *)
Definition is_nx3 {A} (arr : NPArray A) : Prop :=
  ndim arr = 2 /\ shape_at arr 1 = 3.

(** Modelled from the spec: [array_from_vector], whose definition
    (lib/pybind11_nparray.hpp) is missing: the vector as a one-dimensional
    array, a single flat buffer of the same length and contents (6). *)
Definition array_from_vector {A} (v : list A) : NPArray A :=
  mkNPArray [Z.of_nat (length v)] v.

Section Bindings.
(** [F] stands for [double]; [zero] is the value a fresh [std::vector<double>]
    is filled with. *)
Context {F : Type} (zero : F).

(** The batch handed to a kernel (the braced argument of [K.f]). *)
Record NBodyProblem := mkProblem {
  obs_pts : list F;
  obs_ns : list F;
  src_pts : list F;
  src_ns : list F;
  n_obs : Z;
  n_src : Z;
  kernel_args : list F
}.

(** A kernel: [f] writes through the [double*] it is given, so it maps the
    contents of the buffer to new contents of the same buffer; it cannot
    resize the vector that owns it. *)
Record Kernel := mkKernel {
  name : string;
  tensor_dim : Z;
  f : NBodyProblem -> list F -> list F;
  f_in_place : forall p out, length (f p out) = length out
}.

(** [get_by_name] is defined in fmm_kernels.cpp; here it is a parameter. *)
Variable get_by_name : string -> Result Kernel.

(** The [KDTree] binding (_fmm.cpp:84-94).  The constructor (kdtree.cpp), a
    parameter here, receives the two buffers, the number of rows of [np_pts]
    and [n_per_cell]. *)
Definition KDTree_init {KD : Type}
    (KDTree_ctor : list F -> list F -> Z -> Z -> KD)
    (np_pts np_normals : NPArray F) (n_per_cell : Z) : Result KD :=
  _ ← check_shape np_pts;
  _ ← check_shape np_normals;
  Ok (KDTree_ctor (ptr np_pts) (ptr np_normals) (shape_at np_pts 0) n_per_cell).

(** The [FMMMat.eval] binding (_fmm.cpp:142-145). *)
Definition FMMMat_eval {M : Type} (eval : M -> list F -> list F)
    (m : M) (v : NPArray F) : Result (NPArray F) :=
  Ok (array_from_vector (eval m (ptr v))).

(** [FMMConfig] (fmm_impl.hpp:10-24). *)
Record FMMConfig := mkFMMConfig {
  inner_r : F;
  outer_r : F;
  order : Z;
  kernel : Kernel;
  params : list F
}.

Definition kernel_name (cfg : FMMConfig) : string := name (kernel cfg).
Definition cfg_tensor_dim (cfg : FMMConfig) : Z := tensor_dim (kernel cfg).

(** The [FMMConfig] binding (_fmm.cpp:108-119). *)
Definition FMMConfig_init (equiv_r check_r : F) (order : Z) (k_name : string)
    (params : NPArray F) : Result FMMConfig :=
  K ← get_by_name k_name;
  Ok (mkFMMConfig equiv_r check_r order K (ptr params)).

(** The size handed to the vector constructor: [int * int], then times two
    [size_t]s. *)
Definition out_size (K : Kernel) (n_obs n_src : Z) : Z :=
  to_size (to_size (to_size (to_int (tensor_dim K * tensor_dim K)) * n_obs)
           * n_src).

(** [direct_eval] (_fmm.cpp:149-165). *)
Definition direct_eval (k_name : string)
    (obs_pts obs_ns src_pts src_ns params : NPArray F)
  : Result (NPArray F) :=
  _ ← check_shape obs_pts;
  _ ← check_shape obs_ns;
  _ ← check_shape src_pts;
  _ ← check_shape src_ns;
  K ← get_by_name k_name;
  let out :=
    replicate (Z.to_nat (out_size K (shape_at obs_pts 0) (shape_at src_pts 0)))
              zero in
  let out' :=
    f K (mkProblem (ptr obs_pts) (ptr obs_ns) (ptr src_pts) (ptr src_ns)
                   (shape_at obs_pts 0) (shape_at src_pts 0) (ptr params))
        out in
  Ok (array_from_vector out').

End Bindings.

Arguments NBodyProblem F : clear implicits.
Arguments Kernel F : clear implicits.
Arguments FMMConfig F : clear implicits.

(** Offset of entry [(i, d1, j, d2)] in a row-major array of shape
    [(n_obs, T, n_src, T)]. *)
Definition row_major (T n_src : Z) (i d1 j d2 : Z) : Z :=
  ((i * T + d1) * n_src + j) * T + d2.

End Binding.

(** ** fast_assembly: make_bsr_matrix *)

Module FastAssembly.

(** [make_array] (declared in pybind11_nparray.hpp) returns a fresh array of
    the given size.  Its initial contents are a parameter: whatever [junk]
    holds at each position. *)
Definition make_array {A} (junk : nat -> A) (n : nat) : list A :=
  map junk (seq 0 n).

Section Bsr.
(** [F] stands for [double]. *)
Context {F : Type}.
Variables (n_rows n_cols blockrows blockcols : nat).
Variables (in_data : list F) (rows cols : list Z).
Variables (junk_indptr junk_indices : nat -> Z) (junk_data : nat -> F).

Definition n_row_blocks : nat := n_rows / blockrows.
Definition n_blocks : nat := length rows.
Definition blocksize : nat := blockrows * blockcols.

(** [std::fill(indptr_ptr, indptr_ptr + n_row_blocks, 0.0)]. *)
Definition fill_zero (indptr : list Z) : list Z :=
  replicate n_row_blocks 0 ++ drop n_row_blocks indptr.

(** First loop: [indptr_ptr[rows_ptr[i]]++]. *)
Definition count_body (i : nat) (indptr : list Z) : option (list Z) :=
  r ← rows !! i;
  c ← vec_at indptr r;
  store indptr r (to_int (c + 1)).

(** Second loop, on [(indptr, cumsum)]. *)
Definition cumsum_body (i : nat) (st : list Z * Z) : option (list Z * Z) :=
  let '(indptr, cumsum) := st in
  temp ← indptr !! i;
  indptr' ← store indptr (Z.of_nat i) (to_int cumsum);
  Some (indptr', to_size (cumsum + temp)).

(** The copy of one block: [data[dest * blocksize + k] =
    in_data[n * blocksize + k]]. *)
Definition copy_body (dest : Z) (n : nat) (k : nat) (data : list F)
  : option (list F) :=
  x ← in_data !! (n * blocksize + k)%nat;
  store data
        (to_size (to_size (to_size dest * Z.of_nat blocksize) + Z.of_nat k)) x.

(** Third loop, on [(indptr, indices, data)]. *)
Definition scatter_body (n : nat) (st : list Z * list Z * list F)
  : option (list Z * list Z * list F) :=
  let '(indptr, indices, data) := st in
  r ← rows !! n;
  let row := to_int r in
  dest ← vec_at indptr row;
  c ← cols !! n;
  indices' ← store indices dest (to_int c);
  data' ← for_loop blocksize (copy_body dest n) data;
  c' ← vec_at indptr row;
  indptr' ← store indptr row (to_int (c' + 1));
  Some (indptr', indices', data').

(** Fourth loop, on [(indptr, last)]. *)
Definition shift_body (i : nat) (st : list Z * Z) : option (list Z * Z) :=
  let '(indptr, last) := st in
  temp ← indptr !! i;
  indptr' ← store indptr (Z.of_nat i) (to_int last);
  Some (indptr', to_size temp).

(** [make_bsr_matrix] (fast_assembly, lines 75-125); the result is the tuple
    [(data, indices, indptr)].  Division by a zero [blockrows] has no defined
    result; [n_cols] is a parameter the function does not read. *)
Definition make_bsr_matrix : option (list F * list Z * list Z) :=
  let _ := n_cols in
  if (blockrows =? 0)%nat then None else
  let indptr := make_array junk_indptr (n_row_blocks + 1) in
  let indices := make_array junk_indices n_blocks in
  let data := make_array junk_data (n_blocks * blockrows * blockcols) in
  let indptr := fill_zero indptr in
  indptr ← for_loop n_blocks count_body indptr;
  '(indptr, _) ← for_loop n_row_blocks cumsum_body (indptr, 0);
  indptr ← store indptr (Z.of_nat n_row_blocks) (to_int (Z.of_nat n_blocks));
  '(indptr, indices, data) ←
     for_loop n_blocks scatter_body (indptr, indices, data);
  '(indptr, _) ← for_loop (n_row_blocks + 1) shift_body (indptr, 0);
  Some (data, indices, indptr).

End Bsr.

(** What the caller owes [make_bsr_matrix]: a non-zero block height, row
    indices that are indices of block rows, one column per block with a value
    an [int] can hold, the values of all blocks, and a number of blocks that
    fits an [int]. *)
Definition bsr_input_ok (n_rows blockrows blockcols : nat) {F}
    (in_data : list F) (rows cols : list Z) : Prop :=
  blockrows <> O
  /\ Forall (fun r => 0 <= r < Z.of_nat (n_rows / blockrows)
                      /\ in_int r) rows
  /\ length cols = length rows
  /\ Forall in_int cols
  /\ (length rows * (blockrows * blockcols) <= length in_data)%nat
  /\ Z.of_nat (length rows) <= int_max
  /\ Z.of_nat (length rows * (blockrows * blockcols)) <= size_max.

(** Number of blocks among the first [k] whose row is [r]. *)
Definition count_eq (rows : list Z) (k : nat) (r : Z) : Z :=
  Z.of_nat (length (filter (fun x => x = r) (take k rows))).

(** Number of blocks whose row is below [r]. *)
Definition count_lt (rows : list Z) (r : Z) : Z :=
  Z.of_nat (length (filter (fun x => x < r) rows)).

(** The position block [n] is written to: after the blocks of smaller rows
    and the earlier blocks of its own row. *)
Definition slot (rows : list Z) (n : nat) : Z :=
  let r := default 0 (rows !! n) in count_lt rows r + count_eq rows n r.

End FastAssembly.

(** ** The tree builder (the body, kdtree.cpp, is not among the sources) *)

Module KDTreeModel.

Local Open Scope Q_scope.

(** [Vec3]: the binding reinterprets the n x 3 buffers as [Vec3*]. *)
Record Vec3 := mkVec3 { vx : Q; vy : Q; vz : Q }.

Definition coord (axis : nat) (v : Vec3) : Q :=
  match axis with
  | O => vx v
  | S O => vy v
  | _ => vz v
  end.

Definition zero3 : Vec3 := mkVec3 0 0 0.

Definition coords (v : Vec3) : list Q := [vx v; vy v; vz v].

(** A point with its normal and its position in the input. *)
Record Entry := mkEntry { e_pt : Vec3; e_normal : Vec3; e_orig : nat }.

Definition Qlt_bool (x y : Q) : bool := negb (Qle_bool y x).

Definition min_coord (axis : nat) (es : list Entry) : Q :=
  match es with
  | [] => 0
  | e :: es' =>
      foldr (fun e' m => Qmin (coord axis (e_pt e')) m) (coord axis (e_pt e)) es'
  end.

Definition max_coord (axis : nat) (es : list Entry) : Q :=
  match es with
  | [] => 0
  | e :: es' =>
      foldr (fun e' m => Qmax (coord axis (e_pt e')) m) (coord axis (e_pt e)) es'
  end.

(** Extent of the actual points along an axis. *)
Definition extent (axis : nat) (es : list Entry) : Q :=
  max_coord axis es - min_coord axis es.

Definition midpoint (axis : nat) (es : list Entry) : Q :=
  (min_coord axis es + max_coord axis es) / 2.

(** Modelled from the spec: the bounding ball of a node, computed in the
    missing kdtree.cpp.  The spec asks for containment only (4.1: "exact is
    not required, only containment"); the
    ball here is centred at the midpoint of the extents and its radius is the
    sum of the half extents, which bounds the distance of every point from
    the centre and is zero exactly when the points coincide. *)
Definition enclosing_ball (es : list Entry) : Ball Q :=
  mkBall [midpoint 0 es; midpoint 1 es; midpoint 2 es]
         ((extent 0 es + extent 1 es + extent 2 es) / 2).

(** Modelled from the spec: the choice of the splitting axis in the missing
    kdtree.cpp: the longest extent of the actual points (4.1). *)
Definition longest_axis (es : list Entry) : nat :=
  if Qle_bool (extent 1 es) (extent 0 es) && Qle_bool (extent 2 es) (extent 0 es)
  then 0%nat
  else if Qle_bool (extent 2 es) (extent 1 es) then 1%nat else 2%nat.

(** Modelled from the spec: the minimum-radius floor of the missing
    kdtree.cpp (4.1, "radius >= 1e-30"). *)
Definition min_radius : Q := 1 # (10 ^ 30).

(** The side of the midpoint a point lies on, by the sign of the difference. *)
Definition below (axis : nat) (mid : Q) (e : Entry) : bool :=
  Qlt_bool (coord axis (e_pt e) - mid) 0.

Definition root_height (ns : list (Node Q)) : Z :=
  match ns with
  | [] => (-1)%Z
  | n :: _ => height n
  end.

Definition root_idx (ns : list (Node Q)) : list Z :=
  match ns with
  | [] => []
  | n :: _ => [idx n]
  end.

(** Empty children are omitted: no node is built for an empty set. *)
Definition child_nodes
    (build : list Entry -> nat -> nat -> nat -> list (Node Q) * list Entry)
    (es : list Entry) (start depth idx : nat) : list (Node Q) * list Entry :=
  match es with
  | [] => ([], [])
  | _ => build es start depth idx
  end.

Section Build.
Variable leaf_capacity : nat.

(** Modelled from the spec: the recursion of the [KDTree] constructor, whose
    body (kdtree.cpp) is missing: the recursive partition of 4.1, in its
    two-way (KD-tree) form.  [es] are the points of the node, occupying positions
    [start, start + length es) of the reordered array; [idx] is the position
    the node takes in the node array.  The result is the nodes of the subtree
    in creation order (the node first, then the subtree of each child) and
    the points in their new order.  A node is a leaf when it holds at most
    [leaf_capacity] points or its radius is below the floor; otherwise its
    points are split by sign relative to the midpoint of the longest extent,
    empty children are omitted, and the height is one more than the largest
    height of a child.  [fuel] bounds the depth of the recursion. *)
Fixpoint add_node (fuel : nat) (es : list Entry) (start depth idx : nat)
  : list (Node Q) * list Entry :=
  let b := enclosing_ball es in
  let n_end := Z.of_nat (start + length es) in
  let leaf :=
    ([mkNode (Z.of_nat start) n_end b true (Z.of_nat idx) 0 (Z.of_nat depth) []],
     es) in
  match fuel with
  | O => leaf
  | S fuel' =>
      if (length es <=? leaf_capacity)%nat || Qlt_bool (radius b) min_radius
      then leaf
      else
        let axis := longest_axis es in
        let mid := midpoint axis es in
        let lo := List.filter (below axis mid) es in
        let hi := List.filter (fun e => negb (below axis mid e)) es in
        let '(ln, le) :=
          child_nodes (add_node fuel') lo start (S depth) (S idx) in
        let '(rn, re) :=
          child_nodes (add_node fuel') hi (start + length lo) (S depth)
                      (S idx + length ln) in
        let h := (1 + Z.max (root_height ln) (root_height rn))%Z in
        (mkNode (Z.of_nat start) n_end b false (Z.of_nat idx) h
                (Z.of_nat depth) (root_idx ln ++ root_idx rn)
           :: ln ++ rn,
         le ++ re)
  end.

End Build.

Record Tree := mkTree {
  nodes : list (Node Q);
  pts : list Vec3;
  normals : list Vec3;
  orig_idxs : list nat;
  max_height : Z
}.

(** The points paired with their normals and input positions.  A normal that
    the normals array does not hold reads as the zero vector. *)
Definition tag (points normals : list Vec3) : list Entry :=
  imap (fun i p => mkEntry p (default zero3 (normals !! i)) i) points.

(** A run of the builder with a given bound on the depth of the recursion. *)
Definition build_tree_with (fuel : nat) (points normals : list Vec3)
    (leaf_capacity : nat) : Tree :=
  let es := tag points normals in
  let '(ns, es') := add_node leaf_capacity fuel es 0 0 0 in
  mkTree ns (map e_pt es') (map e_normal es') (map e_orig es')
         (root_height ns).

(** Modelled from the spec: [build_tree(points, normals, leaf_capacity)]
    (6), i.e. the [KDTree] constructor, whose body (kdtree.cpp) is missing.  A split leaves fewer points on each
    side, so one level per point, and one more, is depth enough. *)
Definition build_tree (points normals : list Vec3) (leaf_capacity : nat)
  : Tree :=
  build_tree_with (S (length points)) points normals leaf_capacity.



(** All points of the input are the same point. *)
Definition coincident (points : list Vec3) : Prop :=
  forall p q, In p points -> In q points -> p = q.

End KDTreeModel.

(** ** The dual-tree traversal (the body, fmm_impl.cpp, is not among the
    sources) *)

Module Traversal.

Local Open Scope Q_scope.
Import KDTreeModel.

(** Squared Euclidean distance of two centres. *)
Fixpoint dist2 (a b : list Q) : Q :=
  match a, b with
  | x :: a', y :: b' => (x - y) * (x - y) + dist2 a' b'
  | _, _ => 0
  end.

(** [d > x] for the [d >= 0] whose square is [d2]: either [x] is negative or
    [x * x < d2]. *)
Definition norm_gt (d2 x : Q) : bool :=
  Qlt_bool x 0 || Qlt_bool (x * x) d2.

(** Modelled from the spec: the inequality by which 4.3 defines a
    well-separated pair, [d > (r_o + r_s) / mac], with [d] the distance of
    the centres and [d2] its square. *)
Definition mac_sum (mac d2 r_o r_s : Q) : bool :=
  norm_gt d2 ((r_o + r_s) / mac).

(** Modelled from the spec: the formulation 4.3 reports for the source (the
    traversal, fmm_impl.cpp, is missing),
    [max(r_o, r_s) / (d - min(r_o, r_s)) < mac].  For a positive [mac] and
    radii that are not negative the quotient is below [mac] when [d] does not
    exceed the smaller radius (the quotient is then negative, or has a zero
    denominator and is read as zero, as a quotient of Rocq's reals is), and
    otherwise when [d > min + max / mac]. *)
Definition mac_ratio (mac d2 r_o r_s : Q) : bool :=
  negb (norm_gt d2 (Qmin r_o r_s))
  || norm_gt d2 (Qmin r_o r_s + Qmax r_o r_s / mac).

(** Modelled from the spec: the MAC test of the missing traversal
    (fmm_impl.cpp).  The two formulations of 4.3 do not accept the same
    pairs, and 4.3 asks for the stricter of the two: a pair passes when it
    passes both. *)
Definition well_separated (mac : Q) (o s : Node Q) : bool :=
  let d2 := dist2 (center (bounds o)) (center (bounds s)) in
  mac_sum mac d2 (radius (bounds o)) (radius (bounds s))
  && mac_ratio mac d2 (radius (bounds o)) (radius (bounds s)).

(** The four lists of 4.3, each filled through [MatrixFreeOp::insert]. *)
Record Lists := mkLists {
  p2p : MatrixFreeOp.t;
  m2l : MatrixFreeOp.t;
  p2l : MatrixFreeOp.t;
  m2p : MatrixFreeOp.t
}.

Definition no_lists : Lists :=
  mkLists MatrixFreeOp.empty MatrixFreeOp.empty MatrixFreeOp.empty
          MatrixFreeOp.empty.

(** Whether the descent is subdividing one side against a leaf of the other
    side, and which side the leaf is on. *)
Inductive Held : Type :=
| Free
| HeldObs
| HeldSrc.

(** The traversal is given the two node arrays and the MAC (4.3, "given
    observation and source trees and the MAC").  The [FMMConfig] of the
    source has no field for the MAC, and the body of [fmmmmmmm], which would
    say where it is taken from, is missing, so it is a parameter here. *)
Section Traverse.
Variables (obs_nodes src_nodes : list (Node Q)) (mac : Q).

(** Modelled from the spec: the dual-tree traversal inside [fmmmmmmm], whose
    body (fmm_impl.cpp) is missing: the recursion of 4.3.  A well-separated
    pair is appended to M2L and the descent stops there; when the pair was
    reached by subdividing the non-leaf side against a leaf of the other
    side, it is appended to P2L (the leaf is the source) or M2P (the leaf is
    the observation node) instead.  A pair of leaves that is not
    well-separated goes to P2P.  Otherwise the side that is not a leaf is
    subdivided, and when neither is, the one with the larger radius (the
    source on a tie).  [fuel] bounds the number of descents. *)
Fixpoint traverse (fuel : nat) (held : Held) (o_idx s_idx : Z) (ls : Lists)
  : Lists :=
  match fuel with
  | O => ls
  | S fuel' =>
      match vec_at obs_nodes o_idx, vec_at src_nodes s_idx with
      | Some o, Some s =>
          if well_separated mac o s then
            match held with
            | Free =>
                mkLists (p2p ls) (MatrixFreeOp.insert (m2l ls) o s)
                        (p2l ls) (m2p ls)
            | HeldSrc =>
                mkLists (p2p ls) (m2l ls)
                        (MatrixFreeOp.insert (p2l ls) o s) (m2p ls)
            | HeldObs =>
                mkLists (p2p ls) (m2l ls) (p2l ls)
                        (MatrixFreeOp.insert (m2p ls) o s)
            end
          else if is_leaf o && is_leaf s then
            mkLists (MatrixFreeOp.insert (p2p ls) o s) (m2l ls)
                    (p2l ls) (m2p ls)
          else if is_leaf s then
            fold_left (fun acc c => traverse fuel' HeldSrc c s_idx acc)
                      (children o) ls
          else if is_leaf o then
            fold_left (fun acc c => traverse fuel' HeldObs o_idx c acc)
                      (children s) ls
          else if Qlt_bool (radius (bounds s)) (radius (bounds o)) then
            fold_left (fun acc c => traverse fuel' Free c s_idx acc)
                      (children o) ls
          else
            fold_left (fun acc c => traverse fuel' Free o_idx c acc)
                      (children s) ls
      | _, _ => ls
      end
  end.


(** The traversal from the two roots.  Every descent moves to a child, so the
    number of nodes of the two trees bounds the number of descents. *)
Definition interaction_lists : Lists :=
  traverse (S (length obs_nodes + length src_nodes)) Free 0 0 no_lists.

End Traverse.


End Traversal.

(** ** Concrete inputs used by the examples below *)

Module Examples.

(** A node that only carries a range and an index. *)
Definition range_node (s e i : Z) : Node Z :=
  mkNode s e (mkBall [] 0) true i 0 0 [].

(** Two observation nodes against three source entries. *)
Definition cil : Interactions.CompressedInteractionList :=
  Interactions.mkCIL [0; 2] [0; 1; 3] [1; 0; 2].

Definition obs_tree : list (Node Z) :=
  [range_node 0 5 0; range_node 0 2 1; range_node 2 5 2].

Definition src_tree : list (Node Z) :=
  [range_node 0 7 0; range_node 0 4 1; range_node 4 7 2].

(** Three 2 x 2 blocks of a 4 x 4 matrix, given out of row order. *)
Definition bsr_rows : list Z := [1; 0; 1].
Definition bsr_cols : list Z := [0; 1; 1].
Definition bsr_data : list Z := [1; 2; 3; 4; 5; 6; 7; 8; 9; 10; 11; 12].
Definition junk {A} (x : A) (i : nat) : A := x.

(** Two copies of one point and a third point apart from them. *)
Definition pA : KDTreeModel.Vec3 := KDTreeModel.mkVec3 0 0 0.
Definition pB : KDTreeModel.Vec3 := KDTreeModel.mkVec3 1 0 0.
Definition nZ : KDTreeModel.Vec3 := KDTreeModel.mkVec3 0 0 1.
Definition cloud : list KDTreeModel.Vec3 := [pA; pA; pB].
Definition cloud_normals : list KDTreeModel.Vec3 := [nZ; nZ; nZ].

(** An observation point far from a source point. *)
Definition pFar : KDTreeModel.Vec3 := KDTreeModel.mkVec3 10 0 0.
Definition obs_kd : KDTreeModel.Tree := KDTreeModel.build_tree [pFar] [nZ] 1.
Definition src_kd : KDTreeModel.Tree := KDTreeModel.build_tree [pA] [nZ] 1.

(** Two clusters of two points each, twenty apart; each is one leaf of
    radius 1. *)
Definition pC : KDTreeModel.Vec3 := KDTreeModel.mkVec3 2 0 0.
Definition pD : KDTreeModel.Vec3 := KDTreeModel.mkVec3 20 0 0.
Definition pE : KDTreeModel.Vec3 := KDTreeModel.mkVec3 22 0 0.
Definition obs_pair : KDTreeModel.Tree :=
  KDTreeModel.build_tree [pD; pE] [nZ; nZ] 2.
Definition src_pair : KDTreeModel.Tree :=
  KDTreeModel.build_tree [pA; pC] [nZ; nZ] 2.

(** Two points against one normal, and a density that is too short. *)
Definition pts_2x3 : Binding.NPArray Z :=
  Binding.mkNPArray [2; 3] [0; 0; 0; 1; 0; 0].

Definition normals_1x3 : Binding.NPArray Z :=
  Binding.mkNPArray [1; 3] [0; 0; 1].

Definition normals_2x3 : Binding.NPArray Z :=
  Binding.mkNPArray [2; 3] [0; 0; 1; 0; 0; 1].

Definition src_1x3 : Binding.NPArray Z :=
  Binding.mkNPArray [1; 3] [4; 0; 0].

Definition q_short : Binding.NPArray Z := Binding.mkNPArray [1] [5].

(** A constructor that records what it is called with. *)
Definition record_ctor (pts normals : list Z) (n_pts n_per_cell : Z)
  : list Z * list Z * Z * Z :=
  (pts, normals, n_pts, n_per_cell).

(** An operator over [n_src_pts] source points with tensor dimension
    [tensor_dim], whose evaluation is of no interest here. *)
Record StubMat := mkStubMat { n_src_pts : Z; stub_tensor_dim : Z }.

Definition stub_eval (m : StubMat) (q : list Z) : list Z := q.

(** A kernel of tensor dimension 2 that counts the entries it fills. *)
Definition counting_kernel : Binding.Kernel Z :=
  Binding.mkKernel "count" 2
    (fun _ out => imap (fun i _ => Z.of_nat i) out)
    (fun _ out => length_imap _ out).

Definition one_kernel (k_name : string) : Binding.Result (Binding.Kernel Z) :=
  if String.eqb k_name "count" then Binding.Ok counting_kernel
  else Binding.Throw "invalid kernel name".

End Examples.

(** ** The number of entries of a compressed list *)

Module EntryCount.
Import Interactions InteractionSum.

(** The number of pairs [(i, j)] the two loops of [count_interactions]
    visit: [obs_src_starts[i+1] - obs_src_starts[i]] for every row where
    that is positive. *)
Definition n_entries (l : CompressedInteractionList) : Z :=
  sum_list
    (map (fun i => Z.of_nat
                     (length (Zrange (default 0 (obs_src_starts l !! i))
                                     (default 0 (obs_src_starts l !! S i)))))
         (seq 0 (length (obs_n_idxs l)))).

End EntryCount.

(** ** playground/specqr/adaptive_integrator.cpp: the integrate binding *)

Module AdaptiveIntegrator.

Section Integrate.
(** [Kernel], [Data] and [integrate] come from adaptive_integrate.hpp; the
    kernels [Ukernel] .. [Hkernel], the value-initialised [Kernel] that
    [std::map::operator[]] stores for a key the map does not hold, and
    [integrate] itself are parameters.  [F] stands for [double], [Tri] for
    the 3 x 3 array of the triangle. *)
Context {Kernel F Tri Result : Type}.
Variables (Ukernel Tkernel Akernel Hkernel default_kernel : Kernel).

(** The arguments of the constructor call
    [Data d(tol, false, Ks[k_name], tri, eps, sm, pr)]. *)
Record Data := mkData {
  d_tol : F;
  d_flag : bool;
  d_kernel : Kernel;
  d_tri : Tri;
  d_eps : F;
  d_sm : F;
  d_pr : F
}.

Variable integrate_data : Data -> Result.

(** [m[k]] as an rvalue: the value at [k]; a missing key is first given a
    value-initialised entry.  The result is the value and the map after the
    access. *)
Definition index (m : gmap string Kernel) (k : string)
  : Kernel * gmap string Kernel :=
  match m !! k with
  | Some v => (v, m)
  | None => (default_kernel, <[k := default_kernel]> m)
  end.

(** [m[k] = v]. *)
Definition assign (m : gmap string Kernel) (k : string) (v : Kernel)
  : gmap string Kernel :=
  <[k := v]> (snd (index m k)).

(** The map the lambda fills on every call (adaptive_integrator.cpp:21-25). *)
Definition Ks : gmap string Kernel :=
  assign (assign (assign (assign ∅ "U" Ukernel) "T" Tkernel) "A" Akernel)
         "H" Hkernel.

(** The [integrate] binding (adaptive_integrator.cpp:17-30). *)
Definition integrate (k_name : string) (tri : Tri) (tol eps sm pr : F)
  : Result :=
  let '(K, _) := index Ks k_name in
  integrate_data (mkData tol false K tri eps sm pr).

(** The kernel a name stands for. *)
Definition kernel_for (k_name : string) : Kernel :=
  if String.eqb k_name "U" then Ukernel
  else if String.eqb k_name "T" then Tkernel
  else if String.eqb k_name "A" then Akernel
  else if String.eqb k_name "H" then Hkernel
  else default_kernel.

End Integrate.

End AdaptiveIntegrator.

(** * Properties *)

(** ** Machine integers and loops *)

Lemma to_int_id z : in_int z -> to_int z = z.
Proof.
  unfold in_int, int_min, int_max, to_int. intros H.
  rewrite Z.mod_small; lia.
Qed.

Lemma to_size_id z : in_size z -> to_size z = z.
Proof.
  unfold in_size, size_max, to_size. intros H.
  rewrite Z.mod_small; lia.
Qed.

Lemma to_size_add_l a b : to_size (to_size a + b) = to_size (a + b).
Proof. unfold to_size. now rewrite Zplus_mod_idemp_l. Qed.

Lemma vec_at_Some {A} (v : list A) (i : Z) (x : A) :
  vec_at v i = Some x -> 0 <= i /\ v !! Z.to_nat i = Some x.
Proof.
  unfold vec_at. destruct (Z.ltb_spec i 0); [discriminate|]. auto.
Qed.

Lemma store_Some {A} (v : list A) (i : Z) (x : A) :
  0 <= i < Z.of_nat (length v) ->
  store v i x = Some (<[Z.to_nat i := x]> v).
Proof.
  intros H. unfold store.
  destruct (Z.leb_spec 0 i); [|lia].
  destruct (Z.ltb_spec i (Z.of_nat (length v))); [reflexivity|lia].
Qed.

Lemma for_loop_S {S} n (body : nat -> S -> option S) s0 :
  for_loop (Datatypes.S n) body s0 = for_loop n body s0 ≫= body n.
Proof. reflexivity. Qed.

(** ** C2: MatrixFreeOp::insert *)

Lemma push_neq op o s : MatrixFreeOp.push op o s <> op.
Proof.
  destruct op as [a b]. unfold MatrixFreeOp.push. simpl. intros H.
  injection H as Ha _. apply (f_equal (@length Z)) in Ha.
  rewrite length_app in Ha. simpl in Ha. lia.
Qed.

Lemma insert_nonempty {F} op (o s : Node F) :
  end_ o - start o <> 0 -> end_ s - start s <> 0 ->
  MatrixFreeOp.insert op o s = MatrixFreeOp.push op (idx o) (idx s).
Proof.
  intros Ho Hs. unfold MatrixFreeOp.insert.
  destruct (Z.eqb_spec (end_ o - start o) 0); [contradiction|].
  destruct (Z.eqb_spec (end_ s - start s) 0); [contradiction|].
  reflexivity.
Qed.

Lemma insert_empty {F} op (o s : Node F) :
  end_ o - start o = 0 \/ end_ s - start s = 0 ->
  MatrixFreeOp.insert op o s = op.
Proof.
  intros H. unfold MatrixFreeOp.insert.
  destruct (Z.eqb_spec (end_ o - start o) 0); [reflexivity|].
  destruct (Z.eqb_spec (end_ s - start s) 0); [reflexivity|].
  destruct H; contradiction.
Qed.

Lemma insert_all_app {F} op (ps qs : list (Node F * Node F)) :
  MatrixFreeOp.insert_all op (ps ++ qs)
  = MatrixFreeOp.insert_all (MatrixFreeOp.insert_all op ps) qs.
Proof. unfold MatrixFreeOp.insert_all. apply fold_left_app. Qed.

(** C2.  For nodes whose range [start, end) is well formed, [insert] appends
    the pair [(obs_n.idx, src_n.idx)] exactly when both nodes own at least
    one point, and leaves the two vectors as they were when either is empty;
    hence a run of [insert]s from the empty operation records the pairs of
    non-empty nodes only, in order. *)
Theorem insert_iff_both_nonempty {F} (op : MatrixFreeOp.t) (obs_n src_n : Node F) :
  start obs_n <= end_ obs_n ->
  start src_n <= end_ src_n ->
  (MatrixFreeOp.insert op obs_n src_n
     = MatrixFreeOp.push op (idx obs_n) (idx src_n)
   <-> 0 < end_ obs_n - start obs_n /\ 0 < end_ src_n - start src_n)
  /\ (end_ obs_n - start obs_n = 0 \/ end_ src_n - start src_n = 0 ->
      MatrixFreeOp.obs_n_idx (MatrixFreeOp.insert op obs_n src_n)
        = MatrixFreeOp.obs_n_idx op
      /\ MatrixFreeOp.src_n_idx (MatrixFreeOp.insert op obs_n src_n)
        = MatrixFreeOp.src_n_idx op)
  /\ (forall pairs : list (Node F * Node F),
        Forall (fun p => start (fst p) <= end_ (fst p)
                         /\ start (snd p) <= end_ (snd p)) pairs ->
        let ne := List.filter MatrixFreeOp.both_nonempty pairs in
        MatrixFreeOp.insert_all MatrixFreeOp.empty pairs
        = MatrixFreeOp.mk (map (fun p => idx (fst p)) ne)
                          (map (fun p => idx (snd p)) ne)).
Proof.
  intros Ho Hs. split; [|split].
  - split.
    + intros H.
      destruct (Z.eq_dec (end_ obs_n - start obs_n) 0) as [E|E].
      { rewrite insert_empty in H by auto. symmetry in H.
        now apply push_neq in H. }
      destruct (Z.eq_dec (end_ src_n - start src_n) 0) as [E'|E'].
      { rewrite insert_empty in H by auto. symmetry in H.
        now apply push_neq in H. }
      lia.
    + intros [H1 H2]. apply insert_nonempty; lia.
  - intros H. now rewrite insert_empty.
  - intros pairs. induction pairs as [|p ps IH] using rev_ind; intros Hwf ne.
    + reflexivity.
    + subst ne. apply Forall_app in Hwf as [Hps Hp].
      apply Forall_inv in Hp as [Hp1 Hp2].
      rewrite insert_all_app, IH by assumption.
      rewrite List.filter_app. cbn [List.filter MatrixFreeOp.insert_all fold_left].
      destruct (MatrixFreeOp.both_nonempty p) eqn:E.
      * unfold MatrixFreeOp.both_nonempty, n_points in E.
        apply andb_true_iff in E as [E1 E2].
        apply Z.ltb_lt in E1, E2.
        rewrite insert_nonempty by lia.
        unfold MatrixFreeOp.push. simpl. now rewrite !map_app.
      * unfold MatrixFreeOp.both_nonempty, n_points in E.
        apply andb_false_iff in E.
        rewrite insert_empty, app_nil_r; [reflexivity|].
        destruct E as [E|E]; apply Z.ltb_ge in E; lia.
Qed.

Lemma insert_iff_both_nonempty_witness :
  MatrixFreeOp.insert MatrixFreeOp.empty
    (Examples.range_node 0 2 7) (Examples.range_node 2 5 9)
  = MatrixFreeOp.push MatrixFreeOp.empty 7 9
  <-> 0 < 2 - 0 /\ 0 < 5 - 2.
Proof.
  refine (proj1 (insert_iff_both_nonempty MatrixFreeOp.empty
            (Examples.range_node 0 2 7) (Examples.range_node 2 5 9) _ _));
    simpl; lia.
Defined.

(** ** C9: count_interactions *)

Section CountInteractions.
Import Interactions InteractionSum.
Context {F : Type}.
Variables (list_ : CompressedInteractionList).
Variables (obs_nodes src_nodes : list (Node F)).
Variables (obs_surf src_surf : bool) (n_surf : Z).

Local Abbreviation n_obs_of := (n_obs_of list_ obs_nodes obs_surf n_surf).
Local Abbreviation n_src_of := (n_src_of list_ src_nodes src_surf n_surf).
Local Abbreviation entry_okb := (entry_okb list_ obs_nodes src_nodes obs_surf src_surf n_surf).
Local Abbreviation row_okb := (row_okb list_ obs_nodes src_nodes obs_surf src_surf n_surf).
Local Abbreviation row_sum := (row_sum list_ obs_nodes src_nodes obs_surf src_surf n_surf).

Lemma in_intb_true z : in_intb z = true -> in_int z.
Proof.
  unfold in_intb, in_int. intros H. apply andb_true_iff in H as [H1 H2].
  apply Z.leb_le in H1, H2. lia.
Qed.

Lemma sum_list_app l1 l2 : sum_list (l1 ++ l2) = sum_list l1 + sum_list l2.
Proof. unfold sum_list. induction l1; simpl; lia. Qed.

Lemma Zrange_snoc lo (k : nat) :
  Zrange lo (lo + Z.of_nat (S k))
  = Zrange lo (lo + Z.of_nat k) ++ [lo + Z.of_nat k].
Proof.
  unfold Zrange.
  replace (Z.to_nat (lo + Z.of_nat (S k) - lo)) with (S k) by lia.
  replace (Z.to_nat (lo + Z.of_nat k - lo)) with k by lia.
  rewrite seq_S, map_app. reflexivity.
Qed.

Lemma Zrange_to_nat lo hi :
  Zrange lo hi = Zrange lo (lo + Z.of_nat (Z.to_nat (hi - lo))).
Proof.
  unfold Zrange. f_equal. f_equal. lia.
Qed.

(** What [node_count] returns where the reads are allowed. *)
Lemma node_count_ok surf (nodes : list (Node F)) i :
  node_okb surf nodes i = true ->
  node_count n_surf surf nodes i
  = Some (if surf then n_surf else point_count nodes i).
Proof.
  unfold node_okb, node_count, point_count. destruct surf; simpl; [reflexivity|].
  destruct (vec_at nodes i) as [n|]; [|discriminate].
  intros H. simpl. now rewrite to_int_id by now apply in_intb_true.
Qed.

(** The inner loop adds the products of one row, modulo 2^64. *)
Lemma inner_loop_sum (i : nat) lo (k : nat) n0 :
  forallb (entry_okb i) (Zrange lo (lo + Z.of_nat k)) = true ->
  for_loop k (fun k n => inner_body list_ src_nodes src_surf n_surf
                                    (n_obs_of i) (lo + Z.of_nat k) n)
           (to_size n0)
  = Some (to_size (n0 + sum_list (map (fun j => n_obs_of i * n_src_of j)
                                      (Zrange lo (lo + Z.of_nat k))))).
Proof.
  induction k as [|k IH]; intros Hok.
  - simpl. unfold Zrange. replace (Z.to_nat (lo + Z.of_nat 0 - lo)) with O by lia.
    simpl. now rewrite Z.add_0_r.
  - rewrite Zrange_snoc in Hok |- *.
    rewrite forallb_app in Hok. apply andb_true_iff in Hok as [Hk Hlast].
    rewrite for_loop_S, IH by assumption. simpl.
    simpl in Hlast. rewrite andb_true_r in Hlast.
    unfold inner_body. unfold InteractionSum.entry_okb in Hlast.
    destruct (vec_at (src_n_idxs list_) (lo + Z.of_nat k)) as [s|] eqn:Es;
      [|discriminate].
    apply andb_true_iff in Hlast as [Hnode Hprod].
    simpl. rewrite (node_count_ok _ _ _ Hnode). simpl.
    rewrite map_app, sum_list_app. simpl.
    assert (Esrc : (if src_surf then n_surf else point_count src_nodes s)
                   = n_src_of (lo + Z.of_nat k)).
    { unfold InteractionSum.n_src_of. now rewrite Es. }
    rewrite Esrc, to_int_id by now apply in_intb_true.
    rewrite to_size_add_l. f_equal. f_equal. unfold sum_list. simpl. lia.
Qed.

(** The outer loop adds the row sums, modulo 2^64. *)
Lemma outer_loop_sum (k : nat) :
  forallb row_okb (seq 0 k) = true ->
  for_loop k (outer_body list_ obs_nodes src_nodes obs_surf src_surf n_surf) 0
  = Some (to_size (sum_list (map row_sum (seq 0 k)))).
Proof.
  induction k as [|k IH]; intros Hok.
  - reflexivity.
  - rewrite seq_S in Hok |- *. simpl in Hok.
    rewrite forallb_app in Hok. apply andb_true_iff in Hok as [Hk Hlast].
    rewrite for_loop_S, IH by assumption. simpl.
    simpl in Hlast. rewrite andb_true_r in Hlast.
    unfold outer_body. unfold InteractionSum.row_okb in Hlast.
    destruct (obs_n_idxs list_ !! k) as [o|] eqn:Eo; [|discriminate].
    destruct (obs_src_starts list_ !! k) as [lo|] eqn:Elo; [|discriminate].
    destruct (obs_src_starts list_ !! S k) as [hi|] eqn:Ehi; [|discriminate].
    apply andb_true_iff in Hlast as [Hnode Hrow].
    simpl. rewrite (node_count_ok _ _ _ Hnode). simpl.
    assert (Eobs : (if obs_surf then n_surf else point_count obs_nodes o)
                   = n_obs_of k).
    { unfold InteractionSum.n_obs_of. now rewrite Eo. }
    rewrite Eobs. unfold inner_loop.
    rewrite Zrange_to_nat in Hrow.
    rewrite (inner_loop_sum k lo _ _ Hrow).
    rewrite <- Zrange_to_nat.
    rewrite map_app, sum_list_app. simpl.
    assert (Erow : row_sum k
                   = sum_list (map (fun j => n_obs_of k * n_src_of j)
                                   (Zrange lo hi))).
    { unfold InteractionSum.row_sum. now rewrite Elo, Ehi. }
    rewrite Erow. f_equal. f_equal. lia.
Qed.

(** C9.  When every read of the two loops falls inside its vector, every
    [int] holds what is assigned to it and the total fits a [size_t],
    [count_interactions] returns the sum, over the entries [(i, j)] with
    [obs_src_starts[i] <= j < obs_src_starts[i+1]], of [n_obs * n_src], where
    [n_obs] is [n_surf] when [obs_surf] holds and the point count of node
    [obs_n_idxs[i]] otherwise, and [n_src] likewise for [src_n_idxs[j]]. *)
Theorem count_interactions_sum :
  readable list_ obs_nodes src_nodes obs_surf src_surf n_surf = true ->
  in_size (interaction_sum list_ obs_nodes src_nodes obs_surf src_surf n_surf) ->
  count_interactions list_ obs_nodes src_nodes obs_surf src_surf n_surf
  = Some (interaction_sum list_ obs_nodes src_nodes obs_surf src_surf n_surf).
Proof.
  intros Hr Hs. unfold count_interactions, readable in *.
  rewrite outer_loop_sum by assumption.
  unfold interaction_sum in *. now rewrite to_size_id.
Qed.

End CountInteractions.

Lemma count_interactions_sum_witness :
  Interactions.count_interactions Examples.cil Examples.obs_tree
    Examples.src_tree false false 6
  = Some 50.
Proof.
  refine (count_interactions_sum Examples.cil Examples.obs_tree
            Examples.src_tree false false 6 _ _).
  - vm_compute. reflexivity.
  - vm_compute. split; discriminate.
Defined.

(** ** C7: shape checks of the bindings *)

Section ShapeChecks.
Import Binding.
Context {F : Type}.

Lemma check_shape_ok (arr : NPArray F) : is_nx3 arr -> check_shape arr = Ok tt.
Proof.
  intros [H1 H2]. unfold check_shape.
  destruct (Z.eqb_spec (ndim arr) 2); [|contradiction].
  destruct (Z.eqb_spec (shape_at arr 1) 3); [|contradiction].
  reflexivity.
Qed.

Lemma check_shape_throw (arr : NPArray F) :
  ~ is_nx3 arr -> check_shape arr = Throw "parameter requires n x 3 array.".
Proof.
  intros H. unfold check_shape, is_nx3 in *.
  destruct (Z.eqb_spec (ndim arr) 2); [|reflexivity].
  destruct (Z.eqb_spec (shape_at arr 1) 3); [|reflexivity].
  tauto.
Qed.

Lemma is_nx3_dec (arr : NPArray F) : {is_nx3 arr} + {~ is_nx3 arr}.
Proof.
  unfold is_nx3.
  destruct (Z.eq_dec (ndim arr) 2); [|right; tauto].
  destruct (Z.eq_dec (shape_at arr 1) 3); [left|right]; tauto.
Qed.

(** C7, as the code has it.  The [KDTree] binding throws (a
    [std::runtime_error] saying "parameter requires n x 3 array.") exactly
    when the points or the normals are not a two-dimensional array with
    three columns; otherwise the constructor is called with the two buffers
    and the number of rows of the points, whatever the number of rows of the
    normals.  The [eval] binding hands the buffer of [q] to the operator and
    throws nothing. *)
Theorem bindings_check_columns_only
    {KD : Type} (ctor : list F -> list F -> Z -> Z -> KD)
    (np_pts np_normals : NPArray F) (n_per_cell : Z) :
  (KDTree_init ctor np_pts np_normals n_per_cell
     = Throw "parameter requires n x 3 array."
   <-> ~ (is_nx3 np_pts /\ is_nx3 np_normals))
  /\ (KDTree_init ctor np_pts np_normals n_per_cell
        = Ok (ctor (ptr np_pts) (ptr np_normals) (shape_at np_pts 0) n_per_cell)
      <-> is_nx3 np_pts /\ is_nx3 np_normals)
  /\ (forall (M : Type) (eval : M -> list F -> list F) (m : M) (q : NPArray F),
        FMMMat_eval eval m q = Ok (array_from_vector (eval m (ptr q)))).
Proof.
  unfold KDTree_init.
  destruct (is_nx3_dec np_pts) as [Hp|Hp];
    [rewrite (check_shape_ok _ Hp) | rewrite (check_shape_throw _ Hp)];
    simpl.
  - destruct (is_nx3_dec np_normals) as [Hn|Hn];
      [rewrite (check_shape_ok _ Hn) | rewrite (check_shape_throw _ Hn)];
      simpl.
    + split; [|split]; [split; [discriminate|tauto] | tauto | reflexivity].
    + split; [|split]; [tauto | split; [discriminate|tauto] | reflexivity].
  - split; [|split]; [tauto | split; [discriminate|tauto] | reflexivity].
Qed.

(** The [FMMConfig] binding looks the kernel up and checks nothing else: it
    throws exactly what [get_by_name] throws, and otherwise stores the radii
    and the order as they are given. *)
Lemma FMMConfig_init_stores (get_by_name : string -> Result (Kernel F))
    (equiv_r check_r : F) (order : Z) (k_name : string) (params : NPArray F) :
  FMMConfig_init get_by_name equiv_r check_r order k_name params
  = match get_by_name k_name with
    | Ok K => Ok (mkFMMConfig equiv_r check_r order K (ptr params))
    | Throw what => Throw what
    end.
Proof. unfold FMMConfig_init. now destruct (get_by_name k_name). Qed.

End ShapeChecks.

(** C7 fails as stated: with two points and a single normal, both arrays
    pass [check_shape] and the constructor is called with [n_pts = 2]; and
    [eval] accepts a density of length 1 for an operator over 2 source points
    of tensor dimension 3. *)
Lemma shape_mismatch_not_raised :
  Binding.shape_at Examples.normals_1x3 0 <> Binding.shape_at Examples.pts_2x3 0
  /\ Binding.KDTree_init Examples.record_ctor Examples.pts_2x3
       Examples.normals_1x3 1
     = Binding.Ok ([0; 0; 0; 1; 0; 0], [0; 0; 1], 2, 1)
  /\ Z.of_nat (length (Binding.ptr Examples.q_short))
     <> Examples.n_src_pts (Examples.mkStubMat 2 3)
        * Examples.stub_tensor_dim (Examples.mkStubMat 2 3)
  /\ Binding.FMMMat_eval Examples.stub_eval (Examples.mkStubMat 2 3)
       Examples.q_short
     = Binding.Ok (Binding.mkNPArray [1] [5]).
Proof.
  repeat split; try reflexivity; vm_compute; discriminate.
Qed.

(** ** C8: the output buffer of direct_eval *)

Section DirectEval.
Import Binding.
Context {F : Type} (zero : F).
Variable get_by_name : string -> Result (Kernel F).

Lemma to_size_mul_l a b : to_size (to_size a * b) = to_size (a * b).
Proof. unfold to_size. now rewrite Zmult_mod_idemp_l. Qed.

(** Without overflow the vector is given [T * T * n_obs * n_src] entries. *)
Lemma out_size_exact (K : Kernel F) (n_obs n_src : Z) :
  0 <= tensor_dim K * tensor_dim K <= int_max ->
  0 <= n_obs * n_src * (tensor_dim K * tensor_dim K) <= size_max ->
  out_size K n_obs n_src = n_obs * n_src * (tensor_dim K * tensor_dim K).
Proof.
  intros HT Hn. unfold out_size.
  rewrite to_int_id by (unfold in_int, int_min; lia).
  rewrite to_size_mul_l, <- Z.mul_assoc, to_size_mul_l, Z.mul_assoc.
  replace (tensor_dim K * tensor_dim K * n_obs * n_src)
    with (n_obs * n_src * (tensor_dim K * tensor_dim K)) by ring.
  now apply to_size_id.
Qed.

(** The offsets of a row-major array of shape [(n_obs, T, n_src, T)] are
    the numbers below [n_obs * n_src * T^2], each taken once. *)
Lemma row_major_range T n_obs n_src i d1 j d2 :
  0 <= i < n_obs -> 0 <= d1 < T -> 0 <= j < n_src -> 0 <= d2 < T ->
  0 <= row_major T n_src i d1 j d2 < n_obs * n_src * (T * T).
Proof.
  unfold row_major. intros Hi Hd1 Hj Hd2.
  assert (0 <= i * T + d1 < n_obs * T) by nia.
  assert (0 <= (i * T + d1) * n_src + j < n_obs * T * n_src) by nia.
  nia.
Qed.

Lemma row_major_onto T n_obs n_src k :
  0 <= T -> 0 <= n_src ->
  0 <= k < n_obs * n_src * (T * T) ->
  exists i d1 j d2,
    (0 <= i < n_obs /\ 0 <= d1 < T /\ 0 <= j < n_src /\ 0 <= d2 < T)
    /\ row_major T n_src i d1 j d2 = k.
Proof.
  intros HT0 Hs0 Hk.
  assert (HT : 0 < T).
  { destruct (Z.eq_dec T 0) as [->|]; [|lia]. rewrite !Z.mul_0_r in Hk. lia. }
  assert (Hs : 0 < n_src).
  { destruct (Z.eq_dec n_src 0) as [->|]; [|lia].
    rewrite Z.mul_0_r, Z.mul_0_l in Hk. lia. }
  exists (k / T / n_src / T), (k / T / n_src mod T), (k / T mod n_src), (k mod T).
  pose proof (Z.div_mod k T ltac:(lia)) as E1.
  pose proof (Z.mod_pos_bound k T HT) as B1.
  pose proof (Z.div_mod (k / T) n_src ltac:(lia)) as E2.
  pose proof (Z.mod_pos_bound (k / T) n_src Hs) as B2.
  pose proof (Z.div_mod (k / T / n_src) T ltac:(lia)) as E3.
  pose proof (Z.mod_pos_bound (k / T / n_src) T HT) as B3.
  assert (0 <= k / T < n_obs * n_src * T).
  { split; [apply Z.div_pos; lia|]. apply Z.div_lt_upper_bound; nia. }
  assert (0 <= k / T / n_src < n_obs * T).
  { split; [apply Z.div_pos; lia|]. apply Z.div_lt_upper_bound; nia. }
  assert (0 <= k / T / n_src / T < n_obs).
  { split; [apply Z.div_pos; lia|]. apply Z.div_lt_upper_bound; nia. }
  split; [lia|]. unfold row_major. nia.
Qed.

Lemma quot_rem_unique T a b a' b' :
  0 <= b < T -> 0 <= b' < T -> a * T + b = a' * T + b' -> a = a' /\ b = b'.
Proof.
  intros Hb Hb' E.
  apply (Z.div_mod_unique T a a' b b'); [left; lia | left; lia | lia].
Qed.

Lemma row_major_inj T n_src i d1 j d2 i' d1' j' d2' :
  0 <= d1 < T -> 0 <= j < n_src -> 0 <= d2 < T ->
  0 <= d1' < T -> 0 <= j' < n_src -> 0 <= d2' < T ->
  row_major T n_src i d1 j d2 = row_major T n_src i' d1' j' d2' ->
  i = i' /\ d1 = d1' /\ j = j' /\ d2 = d2'.
Proof.
  unfold row_major. intros H1 H2 H3 H1' H2' H3' E.
  apply quot_rem_unique in E as [E ->]; [|assumption..].
  apply quot_rem_unique in E as [E ->]; [|assumption..].
  apply quot_rem_unique in E as [-> ->]; [|assumption..].
  tauto.
Qed.

(** C8.  For arrays of shape n x 3 and a known kernel of tensor dimension
    [T], when the size computation does not overflow, [direct_eval] returns
    a one-dimensional array whose buffer is what the kernel, called once on
    the whole batch, leaves in a zero-filled vector of [n_obs * n_src * T^2]
    entries; the buffer has exactly that length, which is the set of
    offsets of a row-major array of shape [(n_obs, T, n_src, T)]. *)
Theorem direct_eval_buffer (k_name : string)
    (obs_pts obs_ns src_pts src_ns params : NPArray F) (K : Kernel F) :
  is_nx3 obs_pts -> is_nx3 obs_ns -> is_nx3 src_pts -> is_nx3 src_ns ->
  get_by_name k_name = Ok K ->
  0 <= tensor_dim K ->
  tensor_dim K * tensor_dim K <= int_max ->
  0 <= shape_at obs_pts 0 ->
  0 <= shape_at src_pts 0 ->
  shape_at obs_pts 0 * shape_at src_pts 0 * (tensor_dim K * tensor_dim K)
    <= size_max ->
  let T := tensor_dim K in
  let n_obs := shape_at obs_pts 0 in
  let n_src := shape_at src_pts 0 in
  let out :=
    f K (mkProblem (ptr obs_pts) (ptr obs_ns) (ptr src_pts) (ptr src_ns)
                   n_obs n_src (ptr params))
        (replicate (Z.to_nat (n_obs * n_src * (T * T))) zero) in
  direct_eval zero get_by_name k_name obs_pts obs_ns src_pts src_ns params
    = Ok (mkNPArray [n_obs * n_src * (T * T)] out)
  /\ Z.of_nat (length out) = n_obs * n_src * (T * T)
  /\ (forall i d1 j d2,
        0 <= i < n_obs -> 0 <= d1 < T -> 0 <= j < n_src -> 0 <= d2 < T ->
        0 <= row_major T n_src i d1 j d2 < Z.of_nat (length out))
  /\ (forall k, 0 <= k < Z.of_nat (length out) ->
        exists i d1 j d2,
          (0 <= i < n_obs /\ 0 <= d1 < T /\ 0 <= j < n_src /\ 0 <= d2 < T)
          /\ row_major T n_src i d1 j d2 = k)
  /\ (forall i d1 j d2 i' d1' j' d2',
        0 <= d1 < T -> 0 <= j < n_src -> 0 <= d2 < T ->
        0 <= d1' < T -> 0 <= j' < n_src -> 0 <= d2' < T ->
        row_major T n_src i d1 j d2 = row_major T n_src i' d1' j' d2' ->
        i = i' /\ d1 = d1' /\ j = j' /\ d2 = d2').
Proof.
  intros H1 H2 H3 H4 HK HT HTT Ho Hs Hsz T n_obs n_src out.
  assert (Hlen : Z.of_nat (length out) = n_obs * n_src * (T * T)).
  { subst out. rewrite f_in_place, length_replicate.
    apply Z2Nat.id. subst T n_obs n_src. nia. }
  split; [|split; [exact Hlen|split; [|split]]].
  - unfold direct_eval.
    rewrite (check_shape_ok _ H1), (check_shape_ok _ H2),
      (check_shape_ok _ H3), (check_shape_ok _ H4). simpl.
    rewrite HK. simpl.
    rewrite out_size_exact by (subst T n_obs n_src; nia).
    unfold array_from_vector. fold T n_obs n_src. fold out.
    now rewrite Hlen.
  - intros. rewrite Hlen. now apply row_major_range.
  - intros k Hk. rewrite Hlen in Hk. now apply row_major_onto.
  - intros. eapply row_major_inj; eauto.
Qed.

End DirectEval.

Lemma direct_eval_buffer_witness :
  Binding.direct_eval 0 Examples.one_kernel "count" Examples.pts_2x3
    Examples.normals_2x3 Examples.src_1x3 Examples.normals_1x3
    (Binding.mkNPArray [0] [])
  = Binding.Ok (Binding.mkNPArray [8] [0; 1; 2; 3; 4; 5; 6; 7]).
Proof.
  refine (proj1 (direct_eval_buffer 0 Examples.one_kernel "count"
                   Examples.pts_2x3 Examples.normals_2x3 Examples.src_1x3
                   Examples.normals_1x3 (Binding.mkNPArray [0] [])
                   Examples.counting_kernel _ _ _ _ _ _ _ _ _ _));
    try (split; reflexivity); try reflexivity; vm_compute; discriminate.
Defined.

(** ** C10: make_bsr_matrix *)

(** A loop whose body keeps an invariant runs to the end and establishes
    it. *)
Lemma for_loop_inv {S} (I : nat -> S -> Prop) n
    (body : nat -> S -> option S) s0 :
  I O s0 ->
  (forall k s, (k < n)%nat -> I k s ->
     exists s', body k s = Some s' /\ I (Datatypes.S k) s') ->
  exists s, for_loop n body s0 = Some s /\ I n s.
Proof.
  intros H0 Hstep. induction n as [|n IH].
  - exists s0. split; [reflexivity|assumption].
  - destruct IH as (s & Es & Is).
    { intros k s Hk. apply Hstep. lia. }
    destruct (Hstep n s ltac:(lia) Is) as (s' & Es' & Is').
    exists s'. split; [|assumption].
    rewrite for_loop_S, Es. exact Es'.
Qed.

Section Counting.
Import FastAssembly.
Variable rows : list Z.

Lemma count_eq_0 r : count_eq rows 0 r = 0.
Proof. reflexivity. Qed.

Lemma count_eq_S k x r :
  rows !! k = Some x ->
  count_eq rows (S k) r = count_eq rows k r + (if decide (x = r) then 1 else 0).
Proof.
  intros Hx. unfold count_eq. rewrite (take_S_r _ _ _ Hx), filter_app, length_app.
  rewrite filter_cons, filter_nil. destruct (decide (x = r)); simpl; lia.
Qed.

Lemma count_eq_step k r : count_eq rows k r <= count_eq rows (S k) r.
Proof.
  destruct (rows !! k) as [x|] eqn:E.
  - rewrite (count_eq_S _ _ _ E). destruct (decide (x = r)); lia.
  - apply lookup_ge_None_1 in E. unfold count_eq.
    rewrite !take_ge by lia. lia.
Qed.

Lemma count_eq_mono k k' r :
  (k <= k')%nat -> count_eq rows k r <= count_eq rows k' r.
Proof.
  induction 1 as [|k' _ IH]; [lia|].
  pose proof (count_eq_step k' r). lia.
Qed.

Lemma count_eq_nonneg k r : 0 <= count_eq rows k r.
Proof. unfold count_eq. lia. Qed.

Lemma count_lt_nonneg r : 0 <= count_lt rows r.
Proof. unfold count_lt. lia. Qed.

End Counting.

Section CountingLt.
Import FastAssembly.

Lemma count_lt_succ rows r :
  count_lt rows (r + 1) = count_lt rows r + count_eq rows (length rows) r.
Proof.
  unfold count_lt, count_eq. rewrite take_ge by lia.
  induction rows as [|x l IH]; [reflexivity|].
  rewrite !filter_cons.
  destruct (decide (x < r + 1)), (decide (x < r)), (decide (x = r));
    simpl length; lia.
Qed.

Lemma count_lt_mono rows r r' : r <= r' -> count_lt rows r <= count_lt rows r'.
Proof.
  intros Hr. unfold count_lt.
  induction rows as [|x l IH]; [reflexivity|].
  rewrite !filter_cons.
  destruct (decide (x < r)), (decide (x < r')); simpl length; lia.
Qed.

Lemma count_lt_le_length rows r : count_lt rows r <= Z.of_nat (length rows).
Proof.
  unfold count_lt. pose proof (length_filter (fun x => x < r) rows). lia.
Qed.

Lemma count_lt_all rows r :
  Forall (fun x => x < r) rows -> count_lt rows r = Z.of_nat (length rows).
Proof.
  unfold count_lt. induction 1 as [|x l Hx _ IH]; [reflexivity|].
  rewrite filter_cons. destruct (decide (x < r)); [|contradiction].
  simpl length. lia.
Qed.

Lemma count_lt_none rows r :
  Forall (fun x => r <= x) rows -> count_lt rows r = 0.
Proof.
  unfold count_lt. induction 1 as [|x l Hx _ IH]; [reflexivity|].
  rewrite filter_cons. destruct (decide (x < r)); [lia|]. exact IH.
Qed.

(** Blocks of one row take consecutive slots, and the slots of different
    rows do not meet. *)
Lemma slot_range rows n r :
  rows !! n = Some r ->
  count_lt rows r <= slot rows n < count_lt rows (r + 1).
Proof.
  intros Hn. unfold slot. rewrite Hn. simpl.
  rewrite count_lt_succ.
  pose proof (count_eq_nonneg rows n r).
  pose proof (count_eq_S rows n r r Hn) as HS.
  destruct (decide (r = r)); [|contradiction].
  pose proof (count_eq_mono rows (S n) (length rows) r
                (lookup_lt_Some _ _ _ Hn)).
  lia.
Qed.

Lemma slot_lt_neq rows m n :
  (m < n)%nat -> (n < length rows)%nat -> slot rows m <> slot rows n.
Proof.
  intros Hmn Hn.
  destruct (lookup_lt_is_Some_2 rows n Hn) as [rn En].
  destruct (lookup_lt_is_Some_2 rows m ltac:(lia)) as [rm Em].
  pose proof (slot_range rows m rm Em) as Rm.
  pose proof (slot_range rows n rn En) as Rn.
  destruct (Z.lt_trichotomy rm rn) as [H|[H|H]].
  - pose proof (count_lt_mono rows (rm + 1) rn ltac:(lia)). lia.
  - subst rn. unfold slot. rewrite Em, En. simpl.
    pose proof (count_eq_S rows m rm rm Em) as HS.
    destruct (decide (rm = rm)); [|contradiction].
    pose proof (count_eq_mono rows (S m) n rm ltac:(lia)). lia.
  - pose proof (count_lt_mono rows (rn + 1) rm ltac:(lia)). lia.
Qed.

Lemma slot_inj rows m n :
  (m < length rows)%nat -> (n < length rows)%nat ->
  slot rows m = slot rows n -> m = n.
Proof.
  intros Hm Hn E.
  destruct (Nat.lt_trichotomy m n) as [H|[H|H]]; [|assumption|].
  - now apply (slot_lt_neq rows m n) in E.
  - symmetry in E. now apply (slot_lt_neq rows n m) in E.
Qed.

End CountingLt.

Section BsrCorrect.
Import FastAssembly.
Context {F : Type}.
Variables (n_rows n_cols blockrows blockcols : nat).
Variables (in_data : list F) (rows cols : list Z).
Variables (junk_indptr junk_indices : nat -> Z) (junk_data : nat -> F).

Local Abbreviation nrb := (n_row_blocks n_rows blockrows).
Local Abbreviation nb := (length rows).
Local Abbreviation bs := (blocksize blockrows blockcols).

Hypothesis Hrows :
  Forall (fun r => 0 <= r < Z.of_nat nrb /\ in_int r) rows.
Hypothesis Hcols_len : length cols = length rows.
Hypothesis Hcols : Forall in_int cols.
Hypothesis Hdata : (nb * bs <= length in_data)%nat.
Hypothesis Hnb : Z.of_nat nb <= int_max.
Hypothesis Hsize : Z.of_nat (nb * bs) <= size_max.

Lemma row_lookup k :
  (k < nb)%nat ->
  exists r, rows !! k = Some r /\ 0 <= r < Z.of_nat nrb /\ in_int r.
Proof.
  intros Hk. destruct (lookup_lt_is_Some_2 rows k Hk) as [r Er].
  exists r. split; [assumption|].
  exact (proj1 (Forall_lookup _ _) Hrows k r Er).
Qed.

Lemma count_eq_le k r : count_eq rows k r <= Z.of_nat k.
Proof.
  unfold count_eq.
  pose proof (length_filter (fun x => x = r) (take k rows)).
  pose proof (length_take_le rows k). 
  rewrite length_take in *. lia.
Qed.

Lemma count_lt_total r : Z.of_nat nrb <= r -> count_lt rows r = Z.of_nat nb.
Proof using Hrows.
  clear Hcols_len Hcols Hdata Hnb Hsize.
  intros Hr. apply count_lt_all.
  eapply Forall_impl; [exact Hrows|]. simpl. intros x Hx. lia.
Qed.

Lemma count_lt_zero : count_lt rows 0 = 0.
Proof using Hrows.
  clear Hcols_len Hcols Hdata Hnb Hsize.
  apply count_lt_none.
  eapply Forall_impl; [exact Hrows|]. simpl. intros x Hx. lia.
Qed.

Lemma small_in_int z : 0 <= z <= Z.of_nat nb -> in_int z.
Proof. unfold in_int, int_min. lia. Qed.

Lemma small_in_size z : 0 <= z <= Z.of_nat nb -> in_size z.
Proof. unfold in_size, size_max, int_max in *. lia. Qed.

(** After the first loop [indptr[r]] is the number of blocks of row [r]. *)
Lemma count_phase (indptr0 : list Z) :
  length indptr0 = S nrb ->
  (forall r, (r < nrb)%nat -> indptr0 !! r = Some 0) ->
  exists indptr,
    for_loop nb (count_body rows) indptr0 = Some indptr
    /\ length indptr = S nrb
    /\ forall r, (r < nrb)%nat ->
         indptr !! r = Some (count_eq rows nb (Z.of_nat r)).
Proof.
  intros Hlen Hzero.
  apply (for_loop_inv
           (fun k indptr =>
              length indptr = S nrb
              /\ forall r, (r < nrb)%nat ->
                   indptr !! r = Some (count_eq rows k (Z.of_nat r)))).
  - split; [assumption|]. intros r Hr. rewrite count_eq_0. auto.
  - intros k s Hk [Hl Hs].
    destruct (row_lookup k Hk) as (r & Er & Hr & _).
    unfold count_body. rewrite Er. simpl.
    unfold vec_at. destruct (Z.ltb_spec r 0); [lia|].
    rewrite (Hs (Z.to_nat r)) by lia. simpl.
    rewrite Z2Nat.id by lia.
    rewrite store_Some by lia.
    eexists. split; [reflexivity|].
    split; [now rewrite length_insert|].
    intros r' Hr'.
    pose proof (count_eq_le k r). pose proof (count_eq_nonneg rows k r).
    rewrite to_int_id by (apply small_in_int; lia).
    rewrite (count_eq_S _ _ _ _ Er).
    destruct (decide (r = Z.of_nat r')) as [->|Hne].
    + rewrite Nat2Z.id, list_lookup_insert_eq by lia. reflexivity.
    + rewrite list_lookup_insert_ne by lia. rewrite Hs by assumption.
      f_equal. lia.
Qed.

(** After the second loop and the store that follows it, [indptr[r]] is the
    number of blocks of the rows before [r]. *)
Lemma cumsum_phase (indptr0 : list Z) :
  length indptr0 = S nrb ->
  (forall r, (r < nrb)%nat ->
     indptr0 !! r = Some (count_eq rows nb (Z.of_nat r))) ->
  exists indptr cumsum,
    for_loop nrb cumsum_body (indptr0, 0) = Some (indptr, cumsum)
    /\ length indptr = S nrb
    /\ forall r, (r < nrb)%nat ->
         indptr !! r = Some (count_lt rows (Z.of_nat r)).
Proof.
  intros Hlen Hcnt.
  destruct (for_loop_inv
           (fun k (st : list Z * Z) =>
              length (fst st) = S nrb
              /\ snd st = count_lt rows (Z.of_nat k)
              /\ (forall r, (r < k)%nat ->
                    fst st !! r = Some (count_lt rows (Z.of_nat r)))
              /\ (forall r, (k <= r < nrb)%nat ->
                    fst st !! r = Some (count_eq rows nb (Z.of_nat r))))
           nrb cumsum_body (indptr0, 0)) as ([indptr cumsum] & E & I).
  - simpl. repeat split; [assumption| symmetry; apply count_lt_zero | lia |].
    intros r Hr. apply Hcnt. lia.
  - intros k [s c] Hk (Hl & Hc & Hlo & Hhi). simpl in *. subst c.
    rewrite (Hhi k) by lia. simpl.
    pose proof (count_lt_nonneg rows (Z.of_nat k)).
    pose proof (count_lt_le_length rows (Z.of_nat k)).
    pose proof (count_lt_le_length rows (Z.of_nat k + 1)).
    pose proof (count_lt_succ rows (Z.of_nat k)) as HS.
    pose proof (count_eq_nonneg rows nb (Z.of_nat k)).
    rewrite store_Some by lia. simpl.
    eexists. split; [reflexivity|]. simpl.
    rewrite length_insert, Nat2Z.id.
    rewrite to_int_id by (apply small_in_int; lia).
    rewrite to_size_id by (apply small_in_size; lia).
    replace (Z.of_nat (S k)) with (Z.of_nat k + 1) by lia.
    repeat split; [assumption | lia | |].
    + intros r Hr. destruct (decide (r = k)) as [->|Hne].
      * now rewrite list_lookup_insert_eq by lia.
      * rewrite list_lookup_insert_ne by lia. apply Hlo. lia.
    + intros r Hr. rewrite list_lookup_insert_ne by lia. apply Hhi. lia.
  - exists indptr, cumsum. simpl in I. destruct I as (Hl & _ & Hlo & _).
    auto.
Qed.

(** The copy of block [k] into slot [dest] touches that slot only. *)
Lemma copy_phase (dest : Z) (k : nat) (data0 : list F) :
  (k < nb)%nat -> 0 <= dest < Z.of_nat nb ->
  length data0 = (nb * bs)%nat ->
  exists data,
    for_loop bs (copy_body blockrows blockcols in_data dest k) data0
      = Some data
    /\ length data = (nb * bs)%nat
    /\ (forall j, (j < bs)%nat ->
          data !! (Z.to_nat dest * bs + j)%nat = in_data !! (k * bs + j)%nat)
    /\ (forall i, (i < Z.to_nat dest * bs \/ Z.to_nat dest * bs + bs <= i)%nat ->
          data !! i = data0 !! i).
Proof.
  intros Hk Hd Hlen.
  apply (for_loop_inv
           (fun j data =>
              length data = (nb * bs)%nat
              /\ (forall j', (j' < j)%nat ->
                    data !! (Z.to_nat dest * bs + j')%nat
                    = in_data !! (k * bs + j')%nat)
              /\ (forall i, (i < Z.to_nat dest * bs
                             \/ Z.to_nat dest * bs + bs <= i)%nat ->
                    data !! i = data0 !! i))).
  - split; [|split]; [assumption | intros; lia | reflexivity].
  - intros j data Hj (Hl & Hcopied & Hrest).
    unfold copy_body.
    destruct (lookup_lt_is_Some_2 in_data (k * bs + j)%nat) as [x Ex];
      [nia|].
    rewrite Ex. simpl.
    assert (Hidx : to_size (to_size (to_size dest * Z.of_nat bs) + Z.of_nat j)
                   = Z.of_nat (Z.to_nat dest * bs + j)).
    { rewrite (to_size_id dest) by (apply small_in_size; lia).
      assert (0 <= dest * Z.of_nat bs + Z.of_nat j < Z.of_nat (nb * bs)) by nia.
      rewrite (to_size_id (dest * Z.of_nat bs))
        by (unfold in_size; nia).
      rewrite to_size_id by (unfold in_size; lia).
      rewrite Nat2Z.inj_add, (Nat2Z.inj_mul (Z.to_nat dest)), Z2Nat.id; lia. }
    rewrite Hidx.
    assert ((Z.to_nat dest * bs + j < nb * bs)%nat) by nia.
    rewrite store_Some by lia. rewrite Nat2Z.id.
    eexists. split; [reflexivity|].
    split; [now rewrite length_insert|]. split.
    + intros j' Hj'. destruct (decide (j' = j)) as [->|Hne].
      * rewrite list_lookup_insert_eq by lia. now rewrite Ex.
      * rewrite list_lookup_insert_ne by lia. apply Hcopied. lia.
    + intros i Hi. rewrite list_lookup_insert_ne by lia. now apply Hrest.
Qed.

(** After the third loop every block sits in its slot, and [indptr[r]] has
    moved to the end of row [r]. *)
Lemma scatter_phase (indptr0 indices0 : list Z) (data0 : list F) :
  length indptr0 = S nrb -> length indices0 = nb ->
  length data0 = (nb * bs)%nat ->
  (forall r, (r < nrb)%nat ->
     indptr0 !! r = Some (count_lt rows (Z.of_nat r))) ->
  indptr0 !! nrb = Some (Z.of_nat nb) ->
  exists indptr indices data,
    for_loop nb (scatter_body blockrows blockcols in_data rows cols)
             (indptr0, indices0, data0) = Some (indptr, indices, data)
    /\ length indptr = S nrb
    /\ (forall r, (r <= nrb)%nat ->
          indptr !! r = Some (count_lt rows (Z.of_nat r + 1)))
    /\ length indices = nb
    /\ length data = (nb * bs)%nat
    /\ (forall m c, (m < nb)%nat -> cols !! m = Some c ->
          indices !! Z.to_nat (slot rows m) = Some c)
    /\ (forall m j, (m < nb)%nat -> (j < bs)%nat ->
          data !! (Z.to_nat (slot rows m) * bs + j)%nat
          = in_data !! (m * bs + j)%nat).
Proof.
  intros Hl1 Hl2 Hl3 Hptr Hlast.
  destruct (for_loop_inv
    (fun k (st : list Z * list Z * list F) =>
       let '(indptr, indices, data) := st in
       length indptr = S nrb /\ length indices = nb
       /\ length data = (nb * bs)%nat
       /\ (forall r, (r < nrb)%nat ->
             indptr !! r
             = Some (count_lt rows (Z.of_nat r) + count_eq rows k (Z.of_nat r)))
       /\ indptr !! nrb = Some (Z.of_nat nb)
       /\ (forall m c, (m < k)%nat -> cols !! m = Some c ->
             indices !! Z.to_nat (slot rows m) = Some c)
       /\ (forall m j, (m < k)%nat -> (j < bs)%nat ->
             data !! (Z.to_nat (slot rows m) * bs + j)%nat
             = in_data !! (m * bs + j)%nat))
    nb (scatter_body blockrows blockcols in_data rows cols)
    (indptr0, indices0, data0)) as ([[indptr indices] data] & E & I).
  - repeat split; try assumption; try (intros; lia).
    intros r Hr. rewrite count_eq_0, Z.add_0_r. now apply Hptr.
  - intros k [[indptr indices] data] Hk (H1 & H2 & H3 & Hp & Hn & Hi & Hd).
    destruct (row_lookup k Hk) as (r & Er & Hr & Hint).
    destruct (lookup_lt_is_Some_2 cols k ltac:(lia)) as [c Ec].
    pose proof (proj1 (Forall_lookup _ _) Hcols k c Ec) as Hc.
    pose proof (slot_range rows k r Er) as Hslot.
    pose proof (count_lt_le_length rows (r + 1)).
    pose proof (count_lt_nonneg rows r).
    assert (Eslot : slot rows k = count_lt rows r + count_eq rows k r).
    { unfold slot. now rewrite Er. }
    unfold scatter_body. rewrite Er. simpl.
    rewrite (to_int_id r) by assumption.
    unfold vec_at. destruct (Z.ltb_spec r 0); [lia|].
    rewrite (Hp (Z.to_nat r)) by lia. simpl.
    rewrite Z2Nat.id by lia. rewrite <- Eslot.
    rewrite Ec. simpl.
    rewrite store_Some by lia. simpl.
    destruct (copy_phase (slot rows k) k data Hk ltac:(lia) H3)
      as (data' & Ecopy & Hl' & Hnew & Hold).
    rewrite Ecopy. simpl.
    rewrite store_Some by lia. simpl.
    eexists. split; [reflexivity|]. cbv beta iota zeta.
    rewrite !length_insert.
    rewrite (to_int_id c) by assumption.
    rewrite to_int_id by (apply small_in_int; lia).
    repeat split; try assumption.
    + intros r' Hr'. rewrite (count_eq_S _ _ _ _ Er).
      destruct (decide (r = Z.of_nat r')) as [->|Hne].
      * rewrite Nat2Z.id, list_lookup_insert_eq by lia. f_equal. lia.
      * rewrite list_lookup_insert_ne by lia. rewrite Hp by assumption.
        f_equal. lia.
    + rewrite list_lookup_insert_ne by lia. assumption.
    + intros m c' Hm Ec'. destruct (decide (m = k)) as [->|Hne].
      * rewrite list_lookup_insert_eq by lia. congruence.
      * assert (slot rows m <> slot rows k)
          by (apply slot_lt_neq; lia).
        destruct (lookup_lt_is_Some_2 rows m ltac:(lia)) as [rm Em].
        pose proof (slot_range rows m rm Em).
        pose proof (count_lt_nonneg rows rm).
        rewrite list_lookup_insert_ne by lia. apply Hi; [lia|assumption].
    + intros m j Hm Hj. destruct (decide (m = k)) as [->|Hne].
      * now apply Hnew.
      * assert (slot rows m <> slot rows k)
          by (apply slot_lt_neq; lia).
        destruct (lookup_lt_is_Some_2 rows m ltac:(lia)) as [rm Em].
        pose proof (slot_range rows m rm Em).
        pose proof (count_lt_nonneg rows rm).
        rewrite Hold by nia. apply Hd; [lia|assumption].
  - exists indptr, indices, data.
    destruct I as (H1 & H2 & H3 & Hp & Hn & Hi & Hd).
    repeat split; try assumption.
    intros r Hr. destruct (decide (r = nrb)) as [->|Hne].
    + rewrite Hn. f_equal. symmetry. apply count_lt_total. lia.
    + rewrite Hp by lia. f_equal. symmetry. apply count_lt_succ.
Qed.

(** The fourth loop moves every entry one place up and puts 0 first. *)
Lemma shift_phase (indptr0 : list Z) :
  length indptr0 = S nrb ->
  (forall r, (r <= nrb)%nat ->
     indptr0 !! r = Some (count_lt rows (Z.of_nat r + 1))) ->
  exists indptr last,
    for_loop (nrb + 1) shift_body (indptr0, 0) = Some (indptr, last)
    /\ length indptr = S nrb
    /\ forall r, (r <= nrb)%nat ->
         indptr !! r = Some (count_lt rows (Z.of_nat r)).
Proof.
  intros Hlen Hptr.
  destruct (for_loop_inv
           (fun k (st : list Z * Z) =>
              length (fst st) = S nrb
              /\ snd st = count_lt rows (Z.of_nat k)
              /\ (forall r, (r < k)%nat ->
                    fst st !! r = Some (count_lt rows (Z.of_nat r)))
              /\ (forall r, (k <= r <= nrb)%nat ->
                    fst st !! r = Some (count_lt rows (Z.of_nat r + 1))))
           (nrb + 1)%nat shift_body (indptr0, 0)) as ([indptr last] & E & I).
  - simpl. repeat split; [assumption| symmetry; apply count_lt_zero | lia |].
    intros r Hr. apply Hptr. lia.
  - intros k [s l] Hk (Hl & Hc & Hlo & Hhi). simpl in *. subst l.
    rewrite (Hhi k) by lia. simpl.
    pose proof (count_lt_nonneg rows (Z.of_nat k)).
    pose proof (count_lt_le_length rows (Z.of_nat k)).
    pose proof (count_lt_nonneg rows (Z.of_nat k + 1)).
    pose proof (count_lt_le_length rows (Z.of_nat k + 1)).
    rewrite store_Some by lia. simpl.
    eexists. split; [reflexivity|]. simpl.
    rewrite length_insert, Nat2Z.id.
    rewrite to_int_id by (apply small_in_int; lia).
    rewrite to_size_id by (apply small_in_size; lia).
    replace (Z.of_nat (S k)) with (Z.of_nat k + 1) by lia.
    repeat split; [assumption | |].
    + intros r Hr. destruct (decide (r = k)) as [->|Hne].
      * now rewrite list_lookup_insert_eq by lia.
      * rewrite list_lookup_insert_ne by lia. apply Hlo. lia.
    + intros r Hr. rewrite list_lookup_insert_ne by lia. apply Hhi. lia.
  - exists indptr, last. simpl in I. destruct I as (Hl & _ & Hlo & _).
    split; [assumption|]. split; [assumption|].
    intros r Hr. apply Hlo. lia.
Qed.

Lemma make_array_length {A} (junk : nat -> A) n :
  length (make_array junk n) = n.
Proof. unfold make_array. now rewrite length_map, length_seq. Qed.

Lemma fill_zero_length (indptr : list Z) :
  length indptr = S nrb -> length (fill_zero n_rows blockrows indptr) = S nrb.
Proof.
  intros H. unfold fill_zero.
  rewrite length_app, length_replicate, length_drop. lia.
Qed.

Lemma fill_zero_lookup (indptr : list Z) r :
  (r < nrb)%nat -> fill_zero n_rows blockrows indptr !! r = Some 0.
Proof.
  intros H. unfold fill_zero.
  rewrite lookup_app_l by (rewrite length_replicate; lia).
  now apply lookup_replicate_2.
Qed.

(** The run of [make_bsr_matrix]: it returns, and [slot] and [count_lt]
    describe what it returns. *)
Lemma make_bsr_matrix_run :
  blockrows <> O ->
  exists data indices indptr,
    make_bsr_matrix n_rows n_cols blockrows blockcols in_data rows cols
                    junk_indptr junk_indices junk_data
      = Some (data, indices, indptr)
    /\ length indptr = S nrb
    /\ (forall r, (r <= nrb)%nat ->
          indptr !! r = Some (count_lt rows (Z.of_nat r)))
    /\ length indices = nb
    /\ length data = (nb * bs)%nat
    /\ (forall m c, (m < nb)%nat -> cols !! m = Some c ->
          indices !! Z.to_nat (slot rows m) = Some c)
    /\ (forall m j, (m < nb)%nat -> (j < bs)%nat ->
          data !! (Z.to_nat (slot rows m) * bs + j)%nat
          = in_data !! (m * bs + j)%nat).
Proof.
  intros Hbr. unfold make_bsr_matrix.
  destruct (Nat.eqb_spec blockrows 0); [contradiction|].
  cbv zeta.
  destruct (count_phase
              (fill_zero n_rows blockrows
                 (make_array junk_indptr (nrb + 1))))
    as (p1 & E1 & L1 & C1).
  { apply fill_zero_length. rewrite make_array_length. lia. }
  { apply fill_zero_lookup. }
  fold nrb. unfold n_blocks. rewrite E1. simpl.
  destruct (cumsum_phase p1 L1 C1) as (p2 & cs & E2 & L2 & C2).
  rewrite E2. simpl.
  rewrite store_Some by lia. simpl.
  destruct (scatter_phase
              (<[Z.to_nat (Z.of_nat nrb) := to_int (Z.of_nat nb)]> p2)
              (make_array junk_indices nb)
              (make_array junk_data (nb * blockrows * blockcols)))
    as (p3 & ix & dt & E3 & L3 & C3 & Li & Ld & Hix & Hdt).
  { now rewrite length_insert. }
  { apply make_array_length. }
  { rewrite make_array_length. unfold blocksize. lia. }
  { intros r Hr. rewrite list_lookup_insert_ne by lia. now apply C2. }
  { rewrite Nat2Z.id, list_lookup_insert_eq by lia.
    rewrite to_int_id by (apply small_in_int; lia). reflexivity. }
  rewrite E3. simpl.
  destruct (shift_phase p3 L3 C3) as (p4 & last & E4 & L4 & C4).
  rewrite E4. simpl.
  exists dt, ix, p4. repeat split; assumption.
Qed.

End BsrCorrect.

(** C10.  For blocks whose row indices are indices of block rows (and sizes
    and column indices that fit the integer types of the code),
    [make_bsr_matrix] returns [(data, indices, indptr)] where [indptr] has
    [n_rows / blockrows + 1] entries, starts at 0, ends at the number of
    blocks, never decreases, and grows from [r] to [r + 1] by the number of
    blocks of row [r]; [indices] has one entry and [data]
    [blockrows * blockcols] entries for each block; and every block [n] has
    a slot of its own, inside the range [indptr[row] .. indptr[row + 1]) of
    its row, that holds its column index in [indices] and its
    [blockrows * blockcols] values, unchanged, in [data]. *)
Theorem make_bsr_matrix_csr {F} (n_rows n_cols blockrows blockcols : nat)
    (in_data : list F) (rows cols : list Z)
    (junk_indptr junk_indices : nat -> Z) (junk_data : nat -> F) :
  FastAssembly.bsr_input_ok n_rows blockrows blockcols in_data rows cols ->
  exists data indices indptr,
    FastAssembly.make_bsr_matrix n_rows n_cols blockrows blockcols in_data
      rows cols junk_indptr junk_indices junk_data
      = Some (data, indices, indptr)
    /\ length indptr = S (n_rows / blockrows)
    /\ length indices = length rows
    /\ length data = (length rows * (blockrows * blockcols))%nat
    /\ indptr !! O = Some 0
    /\ indptr !! (n_rows / blockrows)%nat = Some (Z.of_nat (length rows))
    /\ (forall r r' a b, (r <= r')%nat ->
          indptr !! r = Some a -> indptr !! r' = Some b -> a <= b)
    /\ (forall r a b,
          indptr !! r = Some a -> indptr !! S r = Some b ->
          b - a = Z.of_nat (length (filter (fun x => x = Z.of_nat r) rows)))
    /\ (forall m n, (m < length rows)%nat -> (n < length rows)%nat ->
          Z.to_nat (FastAssembly.slot rows m)
          = Z.to_nat (FastAssembly.slot rows n) -> m = n)
    /\ (forall n r c,
          rows !! n = Some r -> cols !! n = Some c ->
          let dest := Z.to_nat (FastAssembly.slot rows n) in
          exists lo hi,
            indptr !! Z.to_nat r = Some lo
            /\ indptr !! S (Z.to_nat r) = Some hi
            /\ lo <= Z.of_nat dest < hi
            /\ indices !! dest = Some c
            /\ (forall k, (k < blockrows * blockcols)%nat ->
                  data !! (dest * (blockrows * blockcols) + k)%nat
                  = in_data !! (n * (blockrows * blockcols) + k)%nat)).
Proof.
  intros (Hbr & Hrows & Hcl & Hcols & Hdata & Hnb & Hsize).
  destruct (make_bsr_matrix_run n_rows n_cols blockrows blockcols in_data
              rows cols junk_indptr junk_indices junk_data
              Hrows Hcl Hcols Hdata Hnb Hsize Hbr)
    as (data & indices & indptr & E & Hlen & Hptr & Hli & Hld & Hix & Hdt).
  unfold FastAssembly.n_row_blocks, FastAssembly.blocksize,
    FastAssembly.n_blocks in Hlen, Hptr, Hli, Hld, Hix, Hdt.
  set (nrb := (n_rows / blockrows)%nat) in *.
  set (nb := length rows) in *.
  set (bs := (blockrows * blockcols)%nat) in *.
  assert (Hslot : forall n r, rows !! n = Some r ->
            FastAssembly.count_lt rows r <= FastAssembly.slot rows n
                            < FastAssembly.count_lt rows (r + 1) /\ 0 <= FastAssembly.count_lt rows r).
  { intros n r Er. split; [now apply slot_range|apply count_lt_nonneg]. }
  exists data, indices, indptr.
  split; [exact E|]. split; [exact Hlen|].
  split; [exact Hli|]. split; [exact Hld|].
  split; [|split; [|split; [|split; [|split]]]].
  - rewrite (Hptr O) by lia. f_equal.
    apply (count_lt_zero n_rows blockrows rows Hrows).
  - rewrite (Hptr nrb) by lia. f_equal.
    apply (count_lt_total n_rows blockrows rows Hrows).
    change (FastAssembly.n_row_blocks n_rows blockrows) with nrb. lia.
  - intros r r' a b Hr Ea Eb.
    pose proof (lookup_lt_Some _ _ _ Eb) as Hr'.
    rewrite Hptr in Ea, Eb by lia. injection Ea as <-. injection Eb as <-.
    apply count_lt_mono. lia.
  - intros r a b Ea Eb.
    pose proof (lookup_lt_Some _ _ _ Eb) as Hr'.
    rewrite Hptr in Ea, Eb by lia. injection Ea as <-. injection Eb as <-.
    replace (Z.of_nat (S r)) with (Z.of_nat r + 1) by lia.
    rewrite count_lt_succ. unfold FastAssembly.count_eq. rewrite take_ge by lia. lia.
  - intros m n Hm Hn Emn.
    destruct (lookup_lt_is_Some_2 rows m Hm) as [rm Em].
    destruct (lookup_lt_is_Some_2 rows n Hn) as [rn En].
    pose proof (Hslot m rm Em). pose proof (Hslot n rn En).
    apply (slot_inj rows); [assumption..|lia].
  - intros n r c Er Ec dest.
    pose proof (lookup_lt_Some _ _ _ Er) as Hn.
    pose proof (proj1 (Forall_lookup _ _) Hrows n r Er) as [Hr _].
    pose proof (Hslot n r Er).
    exists (FastAssembly.count_lt rows r), (FastAssembly.count_lt rows (r + 1)).
    split; [|split; [|split; [|split]]].
    + rewrite Hptr by lia. f_equal. f_equal. lia.
    + rewrite Hptr by lia. f_equal. f_equal. lia.
    + subst dest. lia.
    + now apply Hix.
    + intros k Hk. now apply Hdt.
Qed.


Example make_bsr_matrix_example :
  FastAssembly.make_bsr_matrix 4 4 2 2 Examples.bsr_data Examples.bsr_rows
    Examples.bsr_cols (Examples.junk 77) (Examples.junk 88) (Examples.junk 99)
  = Some ([5; 6; 7; 8; 1; 2; 3; 4; 9; 10; 11; 12], [1; 0; 1], [0; 1; 3]).
Proof. vm_compute. reflexivity. Qed.

Lemma make_bsr_matrix_csr_witness :
  exists data indices indptr,
    FastAssembly.make_bsr_matrix 4 4 2 2 Examples.bsr_data Examples.bsr_rows
      Examples.bsr_cols (Examples.junk 77) (Examples.junk 88)
      (Examples.junk 99)
    = Some (data, indices, indptr)
    /\ data = [5; 6; 7; 8; 1; 2; 3; 4; 9; 10; 11; 12]
    /\ indices = [1; 0; 1]
    /\ indptr = [0; 1; 3].
Proof.
  assert (H : FastAssembly.bsr_input_ok 4 2 2 Examples.bsr_data
                Examples.bsr_rows Examples.bsr_cols).
  { unfold FastAssembly.bsr_input_ok.
    split; [discriminate|]. split.
    { repeat (apply Forall_cons; split;
              [vm_compute; intuition discriminate|]).
      apply Forall_nil. exact I. }
    split; [reflexivity|]. split.
    { repeat (apply Forall_cons; split;
              [vm_compute; intuition discriminate|]).
      apply Forall_nil. exact I. }
    split; [vm_compute; lia|].
    split; vm_compute; discriminate. }
  destruct (make_bsr_matrix_csr 4 4 2 2 Examples.bsr_data Examples.bsr_rows
              Examples.bsr_cols (Examples.junk 77) (Examples.junk 88)
              (Examples.junk 99) H)
    as (data & indices & indptr & E & _).
  exists data, indices, indptr. split; [exact E|].
  vm_compute in E. injection E as <- <- <-. repeat split.
Defined.

(** ** The tree builder: C4, C5, C6 *)

(** Linear arithmetic over the rationals (the reals have a tactic of the
    same name). *)
Ltac qlra := unfold Qdiv in *; change (/ 2)%Q with (1 # 2)%Q in *; Lqa.lra.

Section TreeFacts.
Import KDTreeModel.
Local Open Scope Q_scope.

Lemma Qlt_bool_iff x y : Qlt_bool x y = true <-> x < y.
Proof.
  unfold Qlt_bool. rewrite negb_true_iff.
  split.
  - intros H. apply Qnot_le_lt. intros Hle.
    apply Qle_bool_iff in Hle. congruence.
  - intros H. destruct (Qle_bool y x) eqn:E; [|reflexivity].
    apply Qle_bool_iff in E. apply Qlt_not_le in H. contradiction.
Qed.

Lemma Qlt_bool_false x y : Qlt_bool x y = false <-> y <= x.
Proof.
  unfold Qlt_bool. rewrite negb_false_iff. apply Qle_bool_iff.
Qed.

Lemma min_radius_pos : 0 < min_radius.
Proof. reflexivity. Qed.

(** The smallest and the largest coordinate are coordinates of points. *)
Lemma min_coord_spec axis (es : list Entry) :
  es <> [] ->
  (exists e, In e es /\ coord axis (e_pt e) == min_coord axis es)
  /\ (forall e, In e es -> min_coord axis es <= coord axis (e_pt e)).
Proof.
  destruct es as [|e0 es]; [congruence|]. intros _. simpl.
  induction es as [|e es IH]; simpl.
  - split.
    + exists e0. split; [auto|reflexivity].
    + intros e [<-|[]]. apply Qle_refl.
  - destruct IH as [(m & Hm & Em) Hle].
    set (rest := foldr (fun e' m => Qmin (coord axis (e_pt e')) m)
                       (coord axis (e_pt e0)) es) in *.
    destruct (Q.min_spec (coord axis (e_pt e)) rest) as [[Hlt E]|[Hge E]].
    + split.
      * exists e. split; [auto|]. now rewrite E.
      * intros e' [<-|[<-|Hin]]; rewrite E.
        -- eapply Qle_trans; [apply Qlt_le_weak, Hlt|]. apply Hle. auto.
        -- apply Qle_refl.
        -- eapply Qle_trans; [apply Qlt_le_weak, Hlt|]. apply Hle. auto.
    + split.
      * exists m. split; [|now rewrite E].
        destruct Hm as [<-|Hm]; auto.
      * intros e' [<-|[<-|Hin]]; rewrite E.
        -- apply Hle. auto.
        -- assumption.
        -- apply Hle. auto.
Qed.

Lemma max_coord_spec axis (es : list Entry) :
  es <> [] ->
  (exists e, In e es /\ coord axis (e_pt e) == max_coord axis es)
  /\ (forall e, In e es -> coord axis (e_pt e) <= max_coord axis es).
Proof.
  destruct es as [|e0 es]; [congruence|]. intros _. simpl.
  induction es as [|e es IH]; simpl.
  - split.
    + exists e0. split; [auto|reflexivity].
    + intros e [<-|[]]. apply Qle_refl.
  - destruct IH as [(m & Hm & Em) Hle].
    set (rest := foldr (fun e' m => Qmax (coord axis (e_pt e')) m)
                       (coord axis (e_pt e0)) es) in *.
    destruct (Q.max_spec (coord axis (e_pt e)) rest) as [[Hlt E]|[Hge E]].
    + split.
      * exists m. split; [|now rewrite E].
        destruct Hm as [<-|Hm]; auto.
      * intros e' [<-|[<-|Hin]]; rewrite E.
        -- apply Hle. auto.
        -- apply Qlt_le_weak, Hlt.
        -- apply Hle. auto.
    + split.
      * exists e. split; [auto|]. now rewrite E.
      * intros e' [<-|[<-|Hin]]; rewrite E.
        -- eapply Qle_trans; [|apply Hge]. apply Hle. auto.
        -- apply Qle_refl.
        -- eapply Qle_trans; [|apply Hge]. apply Hle. auto.
Qed.

Lemma extent_nonneg axis (es : list Entry) : 0 <= extent axis es.
Proof.
  unfold extent. destruct es as [|e es].
  - vm_compute. discriminate.
  - destruct (min_coord_spec axis (e :: es)) as [_ Hmin]; [congruence|].
    destruct (max_coord_spec axis (e :: es)) as [_ Hmax]; [congruence|].
    specialize (Hmin e (or_introl eq_refl)).
    specialize (Hmax e (or_introl eq_refl)). qlra.
Qed.

(** The longest extent is positive as soon as the radius is. *)
Lemma longest_extent_pos (es : list Entry) :
  0 < radius (enclosing_ball es) -> 0 < extent (longest_axis es) es.
Proof.
  unfold enclosing_ball, longest_axis. simpl. intros Hr.
  pose proof (extent_nonneg 0 es). pose proof (extent_nonneg 1 es).
  pose proof (extent_nonneg 2 es).
  destruct (Qle_bool (extent 1 es) (extent 0 es)) eqn:E10;
    destruct (Qle_bool (extent 2 es) (extent 0 es)) eqn:E20;
    destruct (Qle_bool (extent 2 es) (extent 1 es)) eqn:E21; simpl;
    repeat match goal with
    | H : Qle_bool _ _ = true |- _ => apply Qle_bool_iff in H
    | H : Qle_bool ?x ?y = false |- _ =>
        assert (y < x) by (apply Qlt_bool_iff; unfold Qlt_bool; now rewrite H);
        clear H
    end; qlra.
Qed.

Lemma filter_split_length {A} (f : A -> bool) (l : list A) :
  (length (List.filter f l) + length (List.filter (fun x => negb (f x)) l))%nat
  = length l.
Proof.
  induction l as [|x l IH]; [reflexivity|].
  simpl. destruct (f x); simpl; lia.
Qed.

Lemma filter_split_perm {A} (f : A -> bool) (l : list A) :
  Permutation (List.filter f l ++ List.filter (fun x => negb (f x)) l) l.
Proof.
  induction l as [|x l IH]; [constructor|].
  simpl. destruct (f x); simpl.
  - now constructor.
  - rewrite <- Permutation_middle. now constructor.
Qed.

(** A node that is split has points strictly on both sides of the
    midpoint: both children are non-empty and smaller than the node. *)
Lemma split_proper (cap : nat) (es : list Entry) :
  (length es <=? cap)%nat || Qlt_bool (radius (enclosing_ball es)) min_radius
    = false ->
  let axis := longest_axis es in
  let mid := midpoint axis es in
  let lo := List.filter (below axis mid) es in
  let hi := List.filter (fun e => negb (below axis mid e)) es in
  lo <> [] /\ hi <> []
  /\ (length lo < length es)%nat /\ (length hi < length es)%nat.
Proof.
  intros Hc axis mid lo hi.
  apply orb_false_iff in Hc as [Hlen Hrad].
  apply Nat.leb_gt in Hlen. apply Qlt_bool_false in Hrad.
  assert (Hne : es <> []) by (destruct es; [simpl in Hlen; lia|congruence]).
  assert (Hext : 0 < extent axis es).
  { apply longest_extent_pos. pose proof min_radius_pos.
    eapply Qlt_le_trans; eassumption. }
  destruct (min_coord_spec axis es Hne) as [(emin & Imin & Emin) _].
  destruct (max_coord_spec axis es Hne) as [(emax & Imax & Emax) _].
  assert (Hlo : In emin lo).
  { apply List.filter_In. split; [assumption|].
    unfold below. apply Qlt_bool_iff. subst mid. unfold midpoint, extent in *.
    qlra. }
  assert (Hhi : In emax hi).
  { apply List.filter_In. split; [assumption|].
    unfold below. apply negb_true_iff, Qlt_bool_false.
    subst mid. unfold midpoint, extent in *. qlra. }
  assert (Hsum : (length lo + length hi)%nat = length es).
  { apply filter_split_length. }
  assert (lo <> []) by (intros E; rewrite E in Hlo; contradiction).
  assert (hi <> []) by (intros E; rewrite E in Hhi; contradiction).
  repeat split; try assumption.
  - destruct hi; [congruence|]. simpl in Hsum. lia.
  - destruct lo; [congruence|]. simpl in Hsum. lia.
Qed.

(** The ball of a node contains the points of the node. *)
Lemma enclosing_ball_contains (es : list Entry) e :
  In e es ->
  Traversal.dist2 (coords (e_pt e)) (center (enclosing_ball es))
  <= radius (enclosing_ball es) * radius (enclosing_ball es).
Proof.
  intros Hin.
  assert (Hne : es <> []) by (intros ->; contradiction).
  assert (Hax : forall axis,
            min_coord axis es <= coord axis (e_pt e) <= max_coord axis es).
  { intros axis.
    destruct (min_coord_spec axis es Hne) as [_ Hmin].
    destruct (max_coord_spec axis es Hne) as [_ Hmax]. auto. }
  pose proof (Hax 0%nat) as H0. pose proof (Hax 1%nat) as H1.
  pose proof (Hax 2%nat) as H2.
  unfold enclosing_ball, coords, midpoint, extent in *.
  cbn [center radius Traversal.dist2 coord] in *.
  set (x := vx (e_pt e)) in *. set (y := vy (e_pt e)) in *.
  set (z := vz (e_pt e)) in *.
  set (a0 := min_coord 0 es) in *. set (b0 := max_coord 0 es) in *.
  set (a1 := min_coord 1 es) in *. set (b1 := max_coord 1 es) in *.
  set (a2 := min_coord 2 es) in *. set (b2 := max_coord 2 es) in *.
  clearbody x y z a0 b0 a1 b1 a2 b2. clear Hax Hin Hne.
  unfold Qdiv. change (/ 2) with (1 # 2).
  Lqa.nra.
Qed.

(** A node whose points all coincide has radius zero. *)
Lemma coincident_radius (es : list Entry) :
  (forall e e', In e es -> In e' es -> e_pt e = e_pt e') ->
  radius (enclosing_ball es) == 0.
Proof.
  intros Hco.
  assert (Hext : forall axis, extent axis es == 0).
  { intros axis. unfold extent. destruct es as [|e0 es'] eqn:E.
    - reflexivity.
    - rewrite <- E in *.
      assert (Hne : es <> []) by (rewrite E; congruence).
      destruct (min_coord_spec axis es Hne) as [(e1 & I1 & E1) _].
      destruct (max_coord_spec axis es Hne) as [(e2 & I2 & E2) _].
      rewrite <- E1, <- E2, (Hco e1 e2 I1 I2). qlra. }
  unfold enclosing_ball. cbn [radius].
  rewrite !Hext. reflexivity.
Qed.

Lemma child_nodes_cons build (es : list Entry) start depth idx :
  es <> [] -> child_nodes build es start depth idx = build es start depth idx.
Proof. destruct es; [congruence|reflexivity]. Qed.

(** What [add_node] does with one level of fuel to spend. *)
Lemma add_node_leaf cap fuel (es : list Entry) start depth idx :
  (length es <=? cap)%nat || Qlt_bool (radius (enclosing_ball es)) min_radius
    = true ->
  add_node cap fuel es start depth idx
  = ([mkNode (Z.of_nat start) (Z.of_nat (start + length es))
             (enclosing_ball es) true (Z.of_nat idx) 0 (Z.of_nat depth) []],
     es).
Proof.
  intros Hc. destruct fuel; cbn [add_node]; [reflexivity|]. now rewrite Hc.
Qed.

Lemma add_node_split cap fuel (es : list Entry) start depth idx :
  (length es <=? cap)%nat || Qlt_bool (radius (enclosing_ball es)) min_radius
    = false ->
  let axis := longest_axis es in
  let mid := midpoint axis es in
  let lo := List.filter (below axis mid) es in
  let hi := List.filter (fun e => negb (below axis mid e)) es in
  let l := add_node cap fuel lo start (S depth) (S idx) in
  let r := add_node cap fuel hi (start + length lo) (S depth)
                    (S idx + length (fst l)) in
  add_node cap (S fuel) es start depth idx
  = (mkNode (Z.of_nat start) (Z.of_nat (start + length es))
            (enclosing_ball es) false (Z.of_nat idx)
            (1 + Z.max (root_height (fst l)) (root_height (fst r)))%Z
            (Z.of_nat depth) (root_idx (fst l) ++ root_idx (fst r))
       :: fst l ++ fst r,
     snd l ++ snd r).
Proof.
  intros Hc axis mid lo hi l r.
  destruct (split_proper cap es Hc) as (Hlo & Hhi & _).
  fold axis mid lo hi in Hlo, Hhi.
  cbn [add_node]. rewrite Hc. fold axis mid lo hi.
  rewrite (child_nodes_cons _ lo) by assumption.
  fold l. destruct l as [ln le] eqn:El. cbn [fst snd] in *.
  rewrite (child_nodes_cons _ hi) by assumption.
  fold r. destruct r as [rn re] eqn:Er. reflexivity.
Qed.

(** The bound on the depth does not matter once it exceeds the number of
    points. *)
Lemma add_node_fuel cap fuel fuel' (es : list Entry) start depth idx :
  (length es < fuel)%nat -> (length es < fuel')%nat ->
  add_node cap fuel es start depth idx = add_node cap fuel' es start depth idx.
Proof.
  revert fuel' es start depth idx.
  induction fuel as [|fuel IH]; intros fuel' es start depth idx H1 H2; [lia|].
  destruct fuel' as [|fuel']; [lia|].
  destruct ((length es <=? cap)%nat
            || Qlt_bool (radius (enclosing_ball es)) min_radius) eqn:Hc.
  - now rewrite !add_node_leaf.
  - destruct (split_proper cap es Hc) as (_ & _ & Hlo & Hhi).
    rewrite !add_node_split by assumption. cbv zeta.
    rewrite (IH fuel' (List.filter _ es)) by lia.
    rewrite (IH fuel' (List.filter (fun e => negb _) es)) by lia.
    reflexivity.
Qed.

(** The builder only reorders the points it is given. *)
Lemma add_node_perm cap fuel (es : list Entry) start depth idx :
  Permutation (snd (add_node cap fuel es start depth idx)) es.
Proof.
  revert es start depth idx.
  induction fuel as [|fuel IH]; intros es start depth idx; [reflexivity|].
  destruct ((length es <=? cap)%nat
            || Qlt_bool (radius (enclosing_ball es)) min_radius) eqn:Hc.
  - rewrite add_node_leaf by assumption. reflexivity.
  - rewrite add_node_split by assumption. cbv zeta. cbn [snd].
    rewrite !IH. apply filter_split_perm.
Qed.

(** Every node is a leaf exactly when it is small or degenerate. *)
Lemma add_node_leaves cap fuel (es : list Entry) st depth idx :
  (length es < fuel)%nat ->
  Forall (fun n => is_leaf n = true
                   <-> (end_ n - start n <= Z.of_nat cap)%Z
                       \/ radius (bounds n) < min_radius)
         (fst (add_node cap fuel es st depth idx)).
Proof.
  revert es st depth idx.
  induction fuel as [|fuel IH]; intros es st depth idx Hf; [lia|].
  destruct ((length es <=? cap)%nat
            || Qlt_bool (radius (enclosing_ball es)) min_radius) eqn:Hc.
  - rewrite add_node_leaf by assumption. cbn [fst].
    apply List.Forall_cons; [|apply List.Forall_nil]. cbn [is_leaf end_ Geometry.start bounds].
    split; [intros _|reflexivity].
    apply orb_true_iff in Hc as [Hc|Hc].
    + left. apply Nat.leb_le in Hc. lia.
    + right. now apply Qlt_bool_iff.
  - destruct (split_proper cap es Hc) as (_ & _ & Hlo & Hhi).
    rewrite add_node_split by assumption. cbv zeta. cbn [fst].
    apply List.Forall_cons.
    + cbn [is_leaf end_ Geometry.start bounds].
      apply orb_false_iff in Hc as [Hlen Hrad].
      apply Nat.leb_gt in Hlen. apply Qlt_bool_false in Hrad.
      split; [discriminate|].
      intros [H|H]; [lia|]. apply Qlt_not_le in H. contradiction.
    + apply Forall_app. split; apply IH; lia.
Qed.

Lemma build_tree_with_eq fuel points normals cap :
  build_tree_with fuel points normals cap
  = let r := add_node cap fuel (tag points normals) 0 0 0 in
    mkTree (fst r) (map e_pt (snd r)) (map e_normal (snd r))
           (map e_orig (snd r)) (root_height (fst r)).
Proof.
  unfold build_tree_with. cbv zeta.
  now destruct (add_node cap fuel (tag points normals) 0 0 0).
Qed.

Lemma tag_length points normals : length (tag points normals) = length points.
Proof. unfold tag. apply length_imap. Qed.

Lemma tag_orig points normals :
  map e_orig (tag points normals) = seq 0 (length points).
Proof.
  unfold tag.
  change (map e_orig) with (fmap (M := list) e_orig).
  rewrite fmap_imap.
  rewrite (imap_ext _ (fun j _ => j)) by reflexivity.
  rewrite imap_seq_0. apply list_fmap_id.
Qed.

Lemma tag_elem points normals e :
  In e (tag points normals) ->
  points !! e_orig e = Some (e_pt e)
  /\ e_normal e = default zero3 (normals !! e_orig e).
Proof.
  intros H. apply list_elem_of_In in H. unfold tag in H.
  apply elem_of_lookup_imap in H as (i & p & -> & Hp). simpl. auto.
Qed.

End TreeFacts.

(** C4, as the model has it.  In every tree that [build_tree] produces, a
    node is a leaf exactly when it holds at most [leaf_capacity] points or
    its radius is below the minimum-radius floor. *)
Theorem leaf_iff_small_or_degenerate
    (points normals : list KDTreeModel.Vec3) (leaf_capacity : nat) :
  Forall (fun n => is_leaf n = true
                   <-> (end_ n - start n <= Z.of_nat leaf_capacity)%Z
                       \/ (radius (bounds n) < KDTreeModel.min_radius)%Q)
         (KDTreeModel.nodes
            (KDTreeModel.build_tree points normals leaf_capacity)).
Proof.
  unfold KDTreeModel.build_tree. rewrite build_tree_with_eq. cbv zeta.
  cbn [KDTreeModel.nodes].
  apply add_node_leaves. rewrite tag_length. lia.
Qed.

(** The degenerate input of 4.1: when all points coincide the tree is a
    single leaf, whatever [leaf_capacity] is. *)
Lemma coincident_single_leaf
    (points normals : list KDTreeModel.Vec3) (leaf_capacity : nat) :
  KDTreeModel.coincident points ->
  exists n,
    KDTreeModel.nodes (KDTreeModel.build_tree points normals leaf_capacity)
    = [n]
    /\ is_leaf n = true
    /\ (end_ n - start n = Z.of_nat (length points))%Z.
Proof.
  intros Hco. unfold KDTreeModel.build_tree. rewrite build_tree_with_eq.
  cbv zeta. cbn [KDTreeModel.nodes].
  rewrite add_node_leaf.
  - eexists. split; [reflexivity|]. split; [reflexivity|].
    cbn [end_ start]. rewrite tag_length. lia.
  - apply orb_true_iff. right. apply Qlt_bool_iff.
    rewrite coincident_radius; [reflexivity|].
    intros e e' He He'.
    apply tag_elem in He as [He _]. apply tag_elem in He' as [He' _].
    apply Hco; apply list_elem_of_In; eapply list_elem_of_lookup_2; eassumption.
Qed.

(** C4 fails as stated: of three points, two of them equal, with
    [leaf_capacity = 1], the tree has three nodes, and the node that holds
    the two equal points is a leaf with more points than [leaf_capacity],
    although the points of the input are not all coincident. *)
Lemma leaf_over_capacity :
  ~ KDTreeModel.coincident Examples.cloud
  /\ length (KDTreeModel.nodes
               (KDTreeModel.build_tree Examples.cloud Examples.cloud_normals 1))
     = 3%nat
  /\ exists n,
       KDTreeModel.nodes
         (KDTreeModel.build_tree Examples.cloud Examples.cloud_normals 1)
         !! 1%nat = Some n
       /\ is_leaf n = true
       /\ ~ (end_ n - start n <= 1)%Z.
Proof.
  split; [|split].
  - intros H.
    assert (E : Examples.pA = Examples.pB)
      by (apply H; unfold Examples.cloud; simpl; auto).
    discriminate E.
  - vm_compute. reflexivity.
  - eexists. split; [vm_compute; reflexivity|].
    split; [reflexivity|]. simpl. lia.
Qed.





(** C6.  [orig_idxs] is a permutation of the positions [0 .. len(points)-1]
    of the input: no position occurs twice and every position occurs; and
    the point and the normal at a new position are the point and the normal
    the input had at the original position recorded there. *)
Theorem orig_idxs_permutation
    (points normals : list KDTreeModel.Vec3) (leaf_capacity : nat) :
  let t := KDTreeModel.build_tree points normals leaf_capacity in
  Permutation (KDTreeModel.orig_idxs t) (seq 0 (length points))
  /\ List.NoDup (KDTreeModel.orig_idxs t)
  /\ (forall o, In o (KDTreeModel.orig_idxs t) <-> (o < length points)%nat)
  /\ length (KDTreeModel.orig_idxs t) = length points
  /\ (forall new_position original_position,
        KDTreeModel.orig_idxs t !! new_position = Some original_position ->
        KDTreeModel.pts t !! new_position = points !! original_position
        /\ KDTreeModel.normals t !! new_position
           = Some (default KDTreeModel.zero3 (normals !! original_position))).
Proof.
  intros t. subst t. unfold KDTreeModel.build_tree.
  rewrite build_tree_with_eq. cbv zeta.
  set (r := KDTreeModel.add_node leaf_capacity (S (length points))
              (KDTreeModel.tag points normals) 0 0 0).
  cbn [KDTreeModel.orig_idxs KDTreeModel.pts KDTreeModel.normals].
  assert (Hp : Permutation (snd r) (KDTreeModel.tag points normals))
    by apply add_node_perm.
  assert (Hperm : Permutation (map KDTreeModel.e_orig (snd r))
                              (seq 0 (length points))).
  { rewrite <- (tag_orig points normals). now apply Permutation_map. }
  split; [exact Hperm|]. split; [|split; [|split]].
  - eapply Permutation_NoDup; [symmetry; exact Hperm|]. apply seq_NoDup.
  - intros o. split; intros H.
    + eapply Permutation_in in H; [|exact Hperm]. apply in_seq in H. lia.
    + eapply Permutation_in; [symmetry; exact Hperm|]. apply in_seq. lia.
  - rewrite (Permutation_length Hperm). apply length_seq.
  - intros i o Ho.
    change (map KDTreeModel.e_orig) with (fmap (M := list) KDTreeModel.e_orig) in Ho.
    change (map KDTreeModel.e_pt) with (fmap (M := list) KDTreeModel.e_pt).
    change (map KDTreeModel.e_normal)
      with (fmap (M := list) KDTreeModel.e_normal).
    rewrite list_lookup_fmap in Ho. rewrite !list_lookup_fmap.
    destruct (snd r !! i) as [e|] eqn:Ee; [|discriminate].
    simpl in Ho. injection Ho as <-. simpl.
    assert (Hin : In e (KDTreeModel.tag points normals)).
    { eapply Permutation_in; [exact Hp|].
      apply list_elem_of_In. eapply list_elem_of_lookup_2. exact Ee. }
    apply tag_elem in Hin as [H1 H2]. rewrite H1, H2. auto.
Qed.

(** ** C1: the pairs of the M2L list *)

Section MacSafety.
Import KDTreeModel Traversal.

(** [norm_gt] decides the comparison of the distance with a bound. *)
Lemma norm_gt_sound (d2 x : Q) :
  norm_gt d2 x = true -> (sqrt (Q2R d2) > Q2R x)%R.
Proof.
  unfold norm_gt. intros H. apply orb_true_iff in H as [H|H];
    apply Qlt_bool_iff in H.
  - apply Qlt_Rlt in H. rewrite RMicromega.Q2R_0 in H.
    pose proof (sqrt_pos (Q2R d2)). lra.
  - apply Qlt_Rlt in H. rewrite Q2R_mult in H.
    destruct (Rlt_le_dec (Q2R x) 0) as [Hneg|Hpos].
    + pose proof (sqrt_pos (Q2R d2)). lra.
    + rewrite <- (sqrt_square (Q2R x)) by assumption.
      apply Rlt_gt, sqrt_lt_1_alt. split; [|assumption].
      apply Rle_0_sqr.
Qed.

Lemma dist2_nonneg (a b : list Q) : (0 <= dist2 a b)%Q.
Proof.
  revert b. induction a as [|x a IH]; intros [|y b]; simpl;
    try apply Qle_refl.
  specialize (IH b).
  assert (H : (0 <= (x - y) * (x - y))%Q).
  { destruct (Qlt_le_dec (x - y) 0) as [Hn|Hp].
    - assert (E : ((x - y) * (x - y) == (- (x - y)) * (- (x - y)))%Q) by ring.
      rewrite E. apply Qmult_le_0_compat; Lqa.lra.
    - now apply Qmult_le_0_compat. }
  Lqa.lra.
Qed.

(** On the square of a distance [norm_gt] is the comparison itself. *)
Lemma norm_gt_iff (d2 x : Q) :
  (0 <= d2)%Q -> norm_gt d2 x = true <-> (sqrt (Q2R d2) > Q2R x)%R.
Proof.
  intros Hd. split; [apply norm_gt_sound|]. intros H.
  unfold norm_gt. apply orb_true_iff.
  destruct (Qlt_le_dec x 0) as [Hneg|Hpos].
  - left. now apply Qlt_bool_iff.
  - right. apply Qlt_bool_iff. apply Rlt_Qlt. rewrite Q2R_mult.
    apply Qle_Rle in Hpos, Hd. rewrite RMicromega.Q2R_0 in Hpos, Hd.
    rewrite <- (sqrt_sqrt (Q2R d2)) by assumption.
    apply Rmult_le_0_lt_compat; lra.
Qed.

Lemma Q2R_max (a b : Q) : Q2R (Qmax a b) = Rmax (Q2R a) (Q2R b).
Proof.
  destruct (Q.max_spec a b) as [[H E]|[H E]]; rewrite (Qeq_eqR _ _ E).
  - apply Qlt_Rlt in H. rewrite Rmax_right; lra.
  - apply Qle_Rle in H. rewrite Rmax_left; lra.
Qed.

Lemma Q2R_min (a b : Q) : Q2R (Qmin a b) = Rmin (Q2R a) (Q2R b).
Proof.
  destruct (Q.min_spec a b) as [[H E]|[H E]]; rewrite (Qeq_eqR _ _ E).
  - apply Qlt_Rlt in H. rewrite Rmin_left; lra.
  - apply Qle_Rle in H. rewrite Rmin_right; lra.
Qed.

Lemma Rdiv_lt_iff (a b c : R) : (0 < c)%R -> (a / c < b <-> a < b * c)%R.
Proof.
  intros Hc. split; intros H.
  - replace a with (a / c * c)%R by (field; lra).
    now apply Rmult_lt_compat_r.
  - replace b with (b * c / c)%R by (field; lra).
    unfold Rdiv. apply Rmult_lt_compat_r; [now apply Rinv_0_lt_compat|].
    assumption.
Qed.

(** [mac_ratio] decides the formulation of the source: for a positive MAC,
    radii that are not negative and the square of a distance, it holds
    exactly when [max(r_o, r_s) / (d - min(r_o, r_s)) < mac]. *)
Lemma mac_ratio_spec (mac d2 r_o r_s : Q) :
  (0 < mac)%Q -> (0 <= r_o)%Q -> (0 <= r_s)%Q -> (0 <= d2)%Q ->
  mac_ratio mac d2 r_o r_s = true
  <-> (Rmax (Q2R r_o) (Q2R r_s)
       / (sqrt (Q2R d2) - Rmin (Q2R r_o) (Q2R r_s)) < Q2R mac)%R.
Proof.
  intros Hmac Ho Hs Hd. unfold mac_ratio.
  rewrite orb_true_iff, negb_true_iff, <- not_true_iff_false.
  rewrite !norm_gt_iff by assumption.
  rewrite Q2R_plus, Q2R_div, Q2R_max, Q2R_min
    by (intros E; rewrite E in Hmac; now apply Qlt_irrefl in Hmac).
  apply Qlt_Rlt in Hmac. apply Qle_Rle in Ho, Hs.
  rewrite RMicromega.Q2R_0 in Hmac, Ho, Hs.
  set (d := sqrt (Q2R d2)).
  assert (HM : (0 <= Rmax (Q2R r_o) (Q2R r_s))%R)
    by (apply Rmax_case; assumption).
  assert (Hm : (0 <= Rmin (Q2R r_o) (Q2R r_s))%R)
    by (apply Rmin_case; assumption).
  set (M := Rmax (Q2R r_o) (Q2R r_s)) in *.
  set (m := Rmin (Q2R r_o) (Q2R r_s)) in *.
  set (t := Q2R mac) in *.
  assert (Hq : (0 <= M / t)%R).
  { unfold Rdiv. apply Rmult_le_pos; [assumption|].
    left. now apply Rinv_0_lt_compat. }
  assert (Hqt : (M / t * t = M)%R) by (field; lra).
  set (q := (M / t)%R) in *.
  split.
  - intros [H|H].
    + destruct (Req_dec d m) as [E|Hne].
      * replace (d - m)%R with 0%R by lra.
        unfold Rdiv. rewrite Rinv_0, Rmult_0_r. assumption.
      * assert (Hneg : (/ (d - m) < 0)%R) by (apply Rinv_neg; lra).
        unfold Rdiv. set (i := (/ (d - m))%R) in *. nra.
    + assert (Hpos : (0 < d - m)%R) by lra.
      apply (proj2 (Rdiv_lt_iff M t (d - m) Hpos)).
      assert (H' : (t * q < t * (d - m))%R)
        by (apply Rmult_lt_compat_l; lra).
      lra.
  - intros H. destruct (Rlt_le_dec m d) as [Hgt|Hle]; [right|left; lra].
    assert (Hpos : (0 < d - m)%R) by lra.
    apply (proj1 (Rdiv_lt_iff M t (d - m) Hpos)) in H.
    assert (H' : (q < d - m)%R)
      by (apply (Rmult_lt_reg_l t); [assumption|lra]).
    lra.
Qed.

(** The two formulations of the MAC test do not accept the same pairs: two
    balls of radius 1 whose centres are 7/2 apart pass the formulation of the
    source for the MAC 1/2 ([1 / (7/2 - 1) = 2/5 < 1/2]) and fail the
    defining inequality ([7/2 <= (1 + 1) / (1/2) = 4]). *)
Lemma mac_forms_differ :
  mac_ratio (1 # 2) (49 # 4) 1 1 = true /\ mac_sum (1 # 2) (49 # 4) 1 1 = false.
Proof. split; vm_compute; reflexivity. Qed.


Section Invariant.
Variables (obs_nodes src_nodes : list (Node Q)) (mac : Q).





End Invariant.

End MacSafety.


Example m2l_example :
  Traversal.m2l
    (Traversal.interaction_lists (KDTreeModel.nodes Examples.obs_kd)
       (KDTreeModel.nodes Examples.src_kd) (3 # 10))
  = MatrixFreeOp.mk [0] [0].
Proof. vm_compute. reflexivity. Qed.

(** Two leaves of radius 1 whose centres are 20 apart, with the MAC 1/2. *)
Example m2l_pair_example :
  Forall (fun n => (radius (bounds n) == 1)%Q)
         (KDTreeModel.nodes Examples.obs_pair)
  /\ Forall (fun n => (radius (bounds n) == 1)%Q)
            (KDTreeModel.nodes Examples.src_pair)
  /\ Traversal.interaction_lists (KDTreeModel.nodes Examples.obs_pair)
       (KDTreeModel.nodes Examples.src_pair) (1 # 2)
     = Traversal.mkLists MatrixFreeOp.empty (MatrixFreeOp.mk [0] [0])
         MatrixFreeOp.empty MatrixFreeOp.empty.
Proof.
  split; [|split]; [vm_compute; repeat constructor ..|vm_compute; reflexivity].
Qed.


(** * Further properties of the code *)

(** ** MatrixFreeOp::insert keeps the two vectors in step *)

Lemma insert_extends {F} (op : MatrixFreeOp.t) (o s : Node F) :
  exists eo es,
    MatrixFreeOp.obs_n_idx (MatrixFreeOp.insert op o s)
      = MatrixFreeOp.obs_n_idx op ++ eo
    /\ MatrixFreeOp.src_n_idx (MatrixFreeOp.insert op o s)
      = MatrixFreeOp.src_n_idx op ++ es
    /\ length eo = length es /\ (length eo <= 1)%nat.
Proof.
  unfold MatrixFreeOp.insert.
  destruct ((end_ o - start o =? 0) || (end_ s - start s =? 0)).
  - exists [], []. rewrite !app_nil_r. auto.
  - exists [idx o], [idx s]. simpl. auto.
Qed.

(** X1.  A run of [insert]s only appends: the entries an operation already has
    stay where they are, each call adds at most one pair, and the two index
    vectors grow together, so vectors of equal length stay of equal
    length. *)
Theorem insert_all_appends {F} (op : MatrixFreeOp.t)
    (pairs : list (Node F * Node F)) :
  length (MatrixFreeOp.obs_n_idx op) = length (MatrixFreeOp.src_n_idx op) ->
  let op' := MatrixFreeOp.insert_all op pairs in
  length (MatrixFreeOp.obs_n_idx op') = length (MatrixFreeOp.src_n_idx op')
  /\ (length (MatrixFreeOp.obs_n_idx op')
      <= length (MatrixFreeOp.obs_n_idx op) + length pairs)%nat
  /\ (forall k x, MatrixFreeOp.obs_n_idx op !! k = Some x ->
        MatrixFreeOp.obs_n_idx op' !! k = Some x)
  /\ (forall k x, MatrixFreeOp.src_n_idx op !! k = Some x ->
        MatrixFreeOp.src_n_idx op' !! k = Some x).
Proof.
  intros Hlen op'. subst op'.
  assert (H : exists eo es,
             MatrixFreeOp.obs_n_idx (MatrixFreeOp.insert_all op pairs)
               = MatrixFreeOp.obs_n_idx op ++ eo
             /\ MatrixFreeOp.src_n_idx (MatrixFreeOp.insert_all op pairs)
               = MatrixFreeOp.src_n_idx op ++ es
             /\ length eo = length es /\ (length eo <= length pairs)%nat).
  { clear Hlen. induction pairs as [|p ps IH] using rev_ind.
    - exists [], []. simpl. rewrite !app_nil_r. auto.
    - destruct IH as (eo & es & Eo & Es & El & Hle).
      rewrite insert_all_app.
      cbn [MatrixFreeOp.insert_all fold_left].
      destruct (insert_extends (MatrixFreeOp.insert_all op ps) (fst p) (snd p))
        as (eo' & es' & Eo' & Es' & El' & Hle').
      exists (eo ++ eo'), (es ++ es').
      unfold MatrixFreeOp.insert_all in *.
      rewrite Eo', Es', Eo, Es, <- !app_assoc, !length_app. simpl.
      repeat split; lia. }
  destruct H as (eo & es & Eo & Es & El & Hle).
  rewrite Eo, Es, !length_app.
  split; [lia|]. split; [lia|].
  split; intros k x Hk; now apply lookup_app_l_Some.
Qed.

Lemma insert_all_appends_witness :
  length (MatrixFreeOp.obs_n_idx
            (MatrixFreeOp.insert_all (MatrixFreeOp.mk [4] [5])
               [(Examples.range_node 0 2 7, Examples.range_node 2 5 9);
                (Examples.range_node 3 3 8, Examples.range_node 2 5 9)]))
  = length (MatrixFreeOp.src_n_idx
              (MatrixFreeOp.insert_all (MatrixFreeOp.mk [4] [5])
                 [(Examples.range_node 0 2 7, Examples.range_node 2 5 9);
                  (Examples.range_node 3 3 8, Examples.range_node 2 5 9)])).
Proof.
  refine (proj1 (insert_all_appends (MatrixFreeOp.mk [4] [5])
                   [(Examples.range_node 0 2 7, Examples.range_node 2 5 9);
                    (Examples.range_node 3 3 8, Examples.range_node 2 5 9)]
                   _)).
  reflexivity.
Defined.

(** ** count_interactions: surface counts and short offset arrays *)

Section CountMore.
Import Interactions InteractionSum EntryCount.
Context {F : Type}.

Lemma sum_list_const (c : Z) (l : list Z) :
  sum_list (map (fun _ => c) l) = c * Z.of_nat (length l).
Proof.
  unfold sum_list. induction l as [|x l IH]; simpl; [lia|].
  rewrite IH. lia.
Qed.

Lemma sum_list_scale (c : Z) (l : list Z) :
  sum_list (map (fun x => c * x) l) = c * sum_list l.
Proof.
  unfold sum_list. induction l as [|x l IH]; simpl; [lia|].
  rewrite IH. lia.
Qed.

Lemma surface_sum (l : CompressedInteractionList)
    (obs_nodes src_nodes : list (Node F)) (n_surf : Z) :
  interaction_sum l obs_nodes src_nodes true true n_surf
  = n_surf * n_surf * n_entries l.
Proof.
  unfold interaction_sum, n_entries, row_sum, n_obs_of, n_src_of.
  rewrite <- sum_list_scale, map_map. f_equal.
  apply map_ext. intros i. apply sum_list_const.
Qed.

(** X2.  With both surface flags set the trees are not looked at: whatever the
    trees hold, even no node at all, the count is [n_surf^2] for each entry
    of the list (reduced modulo 2^64), provided the offsets and source
    indices can be read and [n_surf^2] fits an [int]. *)
Theorem count_interactions_surfaces (l : CompressedInteractionList)
    (obs_nodes src_nodes : list (Node F)) (n_surf : Z) :
  readable l (@nil (Node F)) (@nil (Node F)) true true n_surf = true ->
  count_interactions l obs_nodes src_nodes true true n_surf
  = Some (to_size (n_surf * n_surf * n_entries l)).
Proof.
  intros Hr. unfold count_interactions.
  rewrite outer_loop_sum by exact Hr.
  fold (interaction_sum l obs_nodes src_nodes true true n_surf).
  now rewrite surface_sum.
Qed.

(** X3.  The offsets are read at [i] and at [i + 1]: when [obs_src_starts] has
    no more entries than [obs_n_idxs] (and there is at least one row),
    the last round reads past its end. *)
Theorem count_interactions_short_starts (l : CompressedInteractionList)
    (obs_nodes src_nodes : list (Node F)) (obs_surf src_surf : bool)
    (n_surf : Z) :
  obs_n_idxs l <> [] ->
  (length (obs_src_starts l) <= length (obs_n_idxs l))%nat ->
  count_interactions l obs_nodes src_nodes obs_surf src_surf n_surf = None.
Proof.
  intros Hne Hlen. unfold count_interactions.
  destruct (length (obs_n_idxs l)) as [|k] eqn:Ek.
  { destruct (obs_n_idxs l); [congruence|discriminate]. }
  rewrite for_loop_S.
  destruct (for_loop k _ 0) as [n|]; [|reflexivity]. simpl.
  unfold outer_body.
  destruct (obs_n_idxs l !! k); [|reflexivity]. simpl.
  destruct (node_count n_surf obs_surf obs_nodes z); [|reflexivity]. simpl.
  destruct (obs_src_starts l !! k); [|reflexivity]. simpl.
  rewrite (lookup_ge_None_2 (obs_src_starts l) (S k)) by lia.
  reflexivity.
Qed.

End CountMore.

Lemma count_interactions_surfaces_witness :
  Interactions.count_interactions Examples.cil (@nil (Node Z)) (@nil (Node Z))
    true true 6
  = Some 108.
Proof.
  refine (count_interactions_surfaces Examples.cil [] [] 6 _).
  vm_compute. reflexivity.
Defined.

Lemma count_interactions_short_starts_witness :
  Interactions.count_interactions (Interactions.mkCIL [0; 2] [0; 1] [1])
    Examples.obs_tree Examples.src_tree false false 6
  = None.
Proof.
  refine (count_interactions_short_starts (Interactions.mkCIL [0; 2] [0; 1] [1])
            Examples.obs_tree Examples.src_tree false false 6 _ _).
  - discriminate.
  - simpl. lia.
Defined.

(** ** make_bsr_matrix: the slots are a stable sort of the blocks by row *)

Section SlotFacts.
Import FastAssembly.
Variable rows : list Z.

Lemma slot_bounds n :
  (n < length rows)%nat -> 0 <= slot rows n < Z.of_nat (length rows).
Proof.
  intros Hn. destruct (lookup_lt_is_Some_2 rows n Hn) as [r Er].
  pose proof (slot_range rows n r Er).
  pose proof (count_lt_nonneg rows r).
  pose proof (count_lt_le_length rows (r + 1)). lia.
Qed.

(** Blocks of a smaller row come first, and blocks of one row keep the
    order of the input. *)
Lemma slot_order m n rm rn :
  rows !! m = Some rm -> rows !! n = Some rn ->
  rm < rn \/ (rm = rn /\ (m < n)%nat) ->
  slot rows m < slot rows n.
Proof.
  intros Em En H.
  pose proof (slot_range rows m rm Em) as Rm.
  pose proof (slot_range rows n rn En) as Rn.
  destruct H as [H|[-> H]].
  - pose proof (count_lt_mono rows (rm + 1) rn ltac:(lia)). lia.
  - unfold slot. rewrite Em, En. simpl.
    pose proof (count_eq_S rows m rn rn Em) as HS.
    destruct (decide (rn = rn)); [|contradiction].
    pose proof (count_eq_mono rows (S m) n rn ltac:(lia)). lia.
Qed.

(** The slots of the blocks are the positions [0 .. n_blocks - 1], each
    taken once. *)
Lemma slots_perm :
  Permutation (map (fun m => Z.to_nat (slot rows m)) (seq 0 (length rows)))
              (seq 0 (length rows)).
Proof.
  apply NoDup_Permutation_bis.
  - apply NoDup_ListNoDup.
    apply (NoDup_fmap_2_strong (fun m => Z.to_nat (slot rows m))).
    + intros x y Hx Hy E.
      apply list_elem_of_In, in_seq in Hx. apply list_elem_of_In, in_seq in Hy.
      pose proof (slot_bounds x ltac:(lia)). pose proof (slot_bounds y ltac:(lia)).
      apply (slot_inj rows); lia.
    + apply NoDup_seq.
  - rewrite length_map. lia.
  - intros d Hd. apply in_map_iff in Hd as (m & <- & Hm).
    apply in_seq in Hm. pose proof (slot_bounds m ltac:(lia)).
    apply in_seq. lia.
Qed.

Lemma slot_onto d :
  (d < length rows)%nat ->
  exists m, (m < length rows)%nat /\ Z.to_nat (slot rows m) = d.
Proof.
  intros Hd.
  assert (Hin : In d (seq 0 (length rows))) by (apply in_seq; lia).
  eapply Permutation_in in Hin; [|symmetry; apply slots_perm].
  apply in_map_iff in Hin as (m & E & Hm). apply in_seq in Hm.
  exists m. split; [lia|assumption].
Qed.

End SlotFacts.

Lemma lookups_Some {A} (k : list A) :
  map (fun i => k !! i) (seq 0 (length k)) = map Some k.
Proof.
  induction k as [|x k IH]; [reflexivity|].
  cbn [length]. rewrite <- cons_seq, <- seq_shift, map_cons, map_map.
  cbn [map]. f_equal. exact IH.
Qed.

Lemma map_Some_inj {A} (l l' : list A) : map Some l = map Some l' -> l = l'.
Proof.
  revert l'. induction l as [|x l IH]; intros [|y l'] E; try discriminate.
  - reflexivity.
  - simpl in E. injection E as -> E. f_equal. now apply IH.
Qed.

(** Reading a list through a permutation of its positions permutes it. *)
Lemma reindex_perm {A} (l l' : list A) (pos : nat -> nat) :
  length l = length l' ->
  Permutation (map pos (seq 0 (length l'))) (seq 0 (length l')) ->
  (forall m, (m < length l')%nat -> l !! pos m = l' !! m) ->
  Permutation l l'.
Proof.
  intros Hlen Hperm Hat.
  assert (E : Permutation (map Some l') (map Some l)).
  { rewrite <- (lookups_Some l'), <- (lookups_Some l), Hlen.
    rewrite (map_ext_in (fun i => l' !! i) (fun i => l !! pos i)).
    - rewrite <- (map_map pos (fun i => l !! i)).
      now apply Permutation_map.
    - intros m Hm. apply in_seq in Hm. symmetry. apply Hat. lia. }
  apply Permutation_map_inv in E as (l3 & E3 & P3).
  apply map_Some_inj in E3. subst l3. exact P3.
Qed.

(** X7.  The blocks come out sorted by row, blocks of one row in the order of
    the input: if block [m] has a smaller row than block [n], or the same
    row and [m < n], its column index and its values are stored before those
    of block [n]. *)
Theorem make_bsr_matrix_stable_order {F}
    (n_rows n_cols blockrows blockcols : nat)
    (in_data : list F) (rows cols : list Z)
    (junk_indptr junk_indices : nat -> Z) (junk_data : nat -> F) :
  FastAssembly.bsr_input_ok n_rows blockrows blockcols in_data rows cols ->
  exists data indices indptr,
    FastAssembly.make_bsr_matrix n_rows n_cols blockrows blockcols in_data
      rows cols junk_indptr junk_indices junk_data
      = Some (data, indices, indptr)
    /\ forall m n rm rn cm cn,
         rows !! m = Some rm -> rows !! n = Some rn ->
         cols !! m = Some cm -> cols !! n = Some cn ->
         rm < rn \/ (rm = rn /\ (m < n)%nat) ->
         exists pm pn,
           (pm < pn)%nat
           /\ indices !! pm = Some cm /\ indices !! pn = Some cn
           /\ (forall k, (k < FastAssembly.blocksize blockrows blockcols)%nat ->
                 data !! (pm * FastAssembly.blocksize blockrows blockcols + k)%nat
                 = in_data !! (m * FastAssembly.blocksize blockrows blockcols + k)%nat
                 /\ data !! (pn * FastAssembly.blocksize blockrows blockcols + k)%nat
                    = in_data !! (n * FastAssembly.blocksize blockrows blockcols + k)%nat).
Proof.
  intros (Hbr & Hrows & Hcl & Hcols & Hdata & Hnb & Hsize).
  destruct (make_bsr_matrix_run n_rows n_cols blockrows blockcols in_data
              rows cols junk_indptr junk_indices junk_data
              Hrows Hcl Hcols Hdata Hnb Hsize Hbr)
    as (data & indices & indptr & E & Hlen & Hptr & Hli & Hld & Hix & Hdt).
  exists data, indices, indptr. split; [exact E|].
  intros m n rm rn cm cn Em En Ecm Ecn Hord.
  pose proof (lookup_lt_Some _ _ _ Em) as Hm.
  pose proof (lookup_lt_Some _ _ _ En) as Hn.
  pose proof (slot_order rows m n rm rn Em En Hord).
  pose proof (slot_bounds rows m Hm). pose proof (slot_bounds rows n Hn).
  exists (Z.to_nat (FastAssembly.slot rows m)),
         (Z.to_nat (FastAssembly.slot rows n)).
  split; [lia|]. split; [now apply Hix|]. split; [now apply Hix|].
  intros k Hk. split; now apply Hdt.
Qed.

(** X8.  Nothing is lost and nothing is made up: [indices] has one entry per
    block and is a permutation of the column indices of the input, and
    [data] has [blockrows * blockcols] values per block. *)
Theorem make_bsr_matrix_indices_perm {F}
    (n_rows n_cols blockrows blockcols : nat)
    (in_data : list F) (rows cols : list Z)
    (junk_indptr junk_indices : nat -> Z) (junk_data : nat -> F) :
  FastAssembly.bsr_input_ok n_rows blockrows blockcols in_data rows cols ->
  exists data indices indptr,
    FastAssembly.make_bsr_matrix n_rows n_cols blockrows blockcols in_data
      rows cols junk_indptr junk_indices junk_data
      = Some (data, indices, indptr)
    /\ Permutation indices cols
    /\ length indices = length rows
    /\ length data
       = (length rows * FastAssembly.blocksize blockrows blockcols)%nat.
Proof.
  intros (Hbr & Hrows & Hcl & Hcols & Hdata & Hnb & Hsize).
  destruct (make_bsr_matrix_run n_rows n_cols blockrows blockcols in_data
              rows cols junk_indptr junk_indices junk_data
              Hrows Hcl Hcols Hdata Hnb Hsize Hbr)
    as (data & indices & indptr & E & Hlen & Hptr & Hli & Hld & Hix & Hdt).
  exists data, indices, indptr.
  split; [exact E|]. split; [|split; assumption].
  apply (reindex_perm indices cols
           (fun m => Z.to_nat (FastAssembly.slot rows m))).
  - congruence.
  - rewrite Hcl. apply slots_perm.
  - intros m Hm. rewrite Hcl in Hm.
    destruct (lookup_lt_is_Some_2 cols m ltac:(lia)) as [c Ec].
    rewrite Ec. now apply Hix.
Qed.

(** X9.  No uninitialised value reaches the result: whatever the fresh arrays
    hold before they are filled, the same [(data, indices, indptr)] comes
    out. *)
Theorem make_bsr_matrix_no_junk {F}
    (n_rows n_cols blockrows blockcols : nat)
    (in_data : list F) (rows cols : list Z)
    (junk_indptr junk_indices junk_indptr' junk_indices' : nat -> Z)
    (junk_data junk_data' : nat -> F) :
  FastAssembly.bsr_input_ok n_rows blockrows blockcols in_data rows cols ->
  FastAssembly.make_bsr_matrix n_rows n_cols blockrows blockcols in_data
    rows cols junk_indptr junk_indices junk_data
  = FastAssembly.make_bsr_matrix n_rows n_cols blockrows blockcols in_data
      rows cols junk_indptr' junk_indices' junk_data'.
Proof.
  intros (Hbr & Hrows & Hcl & Hcols & Hdata & Hnb & Hsize).
  destruct (make_bsr_matrix_run n_rows n_cols blockrows blockcols in_data
              rows cols junk_indptr junk_indices junk_data
              Hrows Hcl Hcols Hdata Hnb Hsize Hbr)
    as (d1 & i1 & p1 & E1 & Hlen1 & Hptr1 & Hli1 & Hld1 & Hix1 & Hdt1).
  destruct (make_bsr_matrix_run n_rows n_cols blockrows blockcols in_data
              rows cols junk_indptr' junk_indices' junk_data'
              Hrows Hcl Hcols Hdata Hnb Hsize Hbr)
    as (d2 & i2 & p2 & E2 & Hlen2 & Hptr2 & Hli2 & Hld2 & Hix2 & Hdt2).
  rewrite E1, E2.
  set (bs := FastAssembly.blocksize blockrows blockcols) in *.
  assert (Ep : p1 = p2).
  { apply list_eq. intros i.
    destruct (le_lt_dec i (FastAssembly.n_row_blocks n_rows blockrows)).
    - now rewrite Hptr1, Hptr2.
    - rewrite !(lookup_ge_None_2 _ i) by lia. reflexivity. }
  assert (Ei : i1 = i2).
  { apply list_eq. intros i.
    destruct (le_lt_dec (length rows) i).
    - rewrite !(lookup_ge_None_2 _ i) by lia. reflexivity.
    - destruct (slot_onto rows i ltac:(lia)) as (m & Hm & <-).
      destruct (lookup_lt_is_Some_2 cols m ltac:(lia)) as [c Ec].
      now rewrite (Hix1 m c Hm Ec), (Hix2 m c Hm Ec). }
  assert (Ed : d1 = d2).
  { apply list_eq. intros i.
    destruct (le_lt_dec (length rows * bs) i).
    - rewrite !(lookup_ge_None_2 _ i) by lia. reflexivity.
    - assert (Hbs : (0 < bs)%nat) by nia.
      pose proof (Nat.div_mod_eq i bs) as Hi.
      pose proof (Nat.mod_upper_bound i bs ltac:(lia)) as Hj.
      assert (Hd : (i / bs < length rows)%nat).
      { apply Nat.Div0.div_lt_upper_bound. lia. }
      destruct (slot_onto rows (i / bs) Hd) as (m & Hm & Es).
      replace i with (Z.to_nat (FastAssembly.slot rows m) * bs + i mod bs)%nat
        by (rewrite Es; lia).
      now rewrite Hdt1, Hdt2. }
  now rewrite Ep, Ei, Ed.
Qed.

Lemma bsr_example_ok :
  FastAssembly.bsr_input_ok 4 2 2 Examples.bsr_data Examples.bsr_rows
    Examples.bsr_cols.
Proof.
  unfold FastAssembly.bsr_input_ok.
  split; [discriminate|]. split.
  { repeat (apply Forall_cons; split;
            [vm_compute; intuition discriminate|]).
    apply Forall_nil. exact I. }
  split; [reflexivity|]. split.
  { repeat (apply Forall_cons; split;
            [vm_compute; intuition discriminate|]).
    apply Forall_nil. exact I. }
  split; [vm_compute; lia|].
  split; vm_compute; discriminate.
Defined.

Lemma make_bsr_matrix_stable_order_witness :
  exists data indices indptr,
    FastAssembly.make_bsr_matrix 4 4 2 2 Examples.bsr_data Examples.bsr_rows
      Examples.bsr_cols (Examples.junk 77) (Examples.junk 88)
      (Examples.junk 99)
    = Some (data, indices, indptr).
Proof.
  destruct (make_bsr_matrix_stable_order 4 4 2 2 Examples.bsr_data
              Examples.bsr_rows Examples.bsr_cols (Examples.junk 77)
              (Examples.junk 88) (Examples.junk 99) bsr_example_ok)
    as (data & indices & indptr & E & _).
  exists data, indices, indptr. exact E.
Defined.

Lemma make_bsr_matrix_indices_perm_witness :
  exists data indices indptr,
    FastAssembly.make_bsr_matrix 4 4 2 2 Examples.bsr_data Examples.bsr_rows
      Examples.bsr_cols (Examples.junk 77) (Examples.junk 88)
      (Examples.junk 99)
    = Some (data, indices, indptr)
    /\ Permutation indices Examples.bsr_cols.
Proof.
  destruct (make_bsr_matrix_indices_perm 4 4 2 2 Examples.bsr_data
              Examples.bsr_rows Examples.bsr_cols (Examples.junk 77)
              (Examples.junk 88) (Examples.junk 99) bsr_example_ok)
    as (data & indices & indptr & E & P & _).
  exists data, indices, indptr. split; assumption.
Defined.

Lemma make_bsr_matrix_no_junk_witness :
  FastAssembly.make_bsr_matrix 4 4 2 2 Examples.bsr_data Examples.bsr_rows
    Examples.bsr_cols (Examples.junk 77) (Examples.junk 88) (Examples.junk 99)
  = FastAssembly.make_bsr_matrix 4 4 2 2 Examples.bsr_data Examples.bsr_rows
      Examples.bsr_cols (Examples.junk 1) (Examples.junk 2) (Examples.junk 3).
Proof.
  exact (make_bsr_matrix_no_junk 4 4 2 2 Examples.bsr_data Examples.bsr_rows
           Examples.bsr_cols (Examples.junk 77) (Examples.junk 88)
           (Examples.junk 1) (Examples.junk 2) (Examples.junk 99)
           (Examples.junk 3) bsr_example_ok).
Defined.

(** ** make_bsr_matrix: a row index out of range is an out-of-bounds access *)

Lemma for_loop_partial {S} (I : S -> Prop) n
    (body : nat -> S -> option S) s0 :
  I s0 ->
  (forall k s s', (k < n)%nat -> I s -> body k s = Some s' -> I s') ->
  forall s, for_loop n body s0 = Some s -> I s.
Proof.
  intros H0 Hstep. induction n as [|n IH]; intros s E.
  - simpl in E. now injection E as <-.
  - rewrite for_loop_S in E.
    destruct (for_loop n body s0) as [s1|] eqn:E1; [|discriminate].
    simpl in E. apply (Hstep n s1 s); [lia| |assumption].
    apply IH; [|reflexivity]. intros k t t' Hk. apply Hstep. lia.
Qed.

Lemma for_loop_fails {S} (I : S -> Prop) n
    (body : nat -> S -> option S) s0 k :
  I s0 ->
  (forall j s s', (j < n)%nat -> I s -> body j s = Some s' -> I s') ->
  (k < n)%nat ->
  (forall s, I s -> body k s = None) ->
  for_loop n body s0 = None.
Proof.
  intros H0 Hstep Hk Hfail. induction n as [|n IH]; [lia|].
  rewrite for_loop_S.
  destruct (decide (k = n)) as [->|Hne].
  - destruct (for_loop n body s0) as [s1|] eqn:E1; [|reflexivity]. simpl.
    apply Hfail. apply (for_loop_partial I n body s0); auto.
    intros j t t' Hj. apply Hstep. lia.
  - rewrite IH; [reflexivity| |lia].
    intros j t t' Hj. apply Hstep. lia.
Qed.

Lemma store_length {A} (v v' : list A) i x :
  store v i x = Some v' -> length v' = length v.
Proof.
  unfold store. destruct ((0 <=? i) && (i <? Z.of_nat (length v)));
    [|discriminate].
  intros E. injection E as <-. apply length_insert.
Qed.

Lemma store_None {A} (v : list A) i x :
  Z.of_nat (length v) <= i -> store v i x = None.
Proof.
  intros H. unfold store.
  destruct (Z.ltb_spec i (Z.of_nat (length v))); [lia|].
  now rewrite andb_false_r.
Qed.

Lemma store_other {A} (v v' : list A) i x (j : nat) :
  store v i x = Some v' -> Z.of_nat j <> i -> v' !! j = v !! j.
Proof.
  unfold store. destruct (Z.leb_spec 0 i); [|discriminate].
  destruct (i <? Z.of_nat (length v)); [|discriminate]. simpl.
  intros E Hne. injection E as <-. apply list_lookup_insert_ne. lia.
Qed.

Section BadRow.
Import FastAssembly.
Context {F : Type}.
Variables (n_rows n_cols blockrows blockcols : nat).
Variables (in_data : list F) (rows cols : list Z).
Variables (junk_indptr junk_indices : nat -> Z) (junk_data : nat -> F).

Local Abbreviation nrb := (n_row_blocks n_rows blockrows).
Local Abbreviation nb := (length rows).

Lemma count_body_length i (s s' : list Z) :
  count_body rows i s = Some s' -> length s' = length s.
Proof.
  unfold count_body. destruct (rows !! i); [|discriminate]. simpl.
  destruct (vec_at s z); [|discriminate]. simpl. apply store_length.
Qed.

Lemma cumsum_body_length i (st st' : list Z * Z) :
  cumsum_body i st = Some st' -> length (fst st') = length (fst st).
Proof.
  destruct st as [s c]. unfold cumsum_body.
  destruct (s !! i); [|discriminate]. simpl.
  destruct (store s (Z.of_nat i) (to_int c)) eqn:E; [|discriminate]. simpl.
  intros H. injection H as <-. simpl. now apply store_length in E.
Qed.

(** The first loop reads [indptr[r]] for every row index [r]. *)
Lemma count_loop_fails (indptr0 : list Z) k r :
  length indptr0 = S nrb ->
  rows !! k = Some r -> r < 0 \/ Z.of_nat nrb < r ->
  for_loop nb (count_body rows) indptr0 = None.
Proof.
  intros Hlen Ek Hr.
  apply (for_loop_fails (fun s => length s = S nrb) _ _ _ k).
  - assumption.
  - intros j s s' _ Hs E. apply count_body_length in E. congruence.
  - eapply lookup_lt_Some; eassumption.
  - intros s Hs. unfold count_body. rewrite Ek. simpl.
    unfold vec_at. destruct (Z.ltb_spec r 0); [reflexivity|].
    rewrite (lookup_ge_None_2 s (Z.to_nat r)) by lia. reflexivity.
Qed.

(** The third loop writes block [n] at [indices[indptr[row]]]; for
    [row = n_row_blocks] that is [indices[n_blocks]]. *)
Lemma scatter_loop_fails (indptr0 indices0 : list Z) (data0 : list F) k :
  Forall in_int rows ->
  length indices0 = nb ->
  indptr0 !! nrb = Some (Z.of_nat nb) ->
  rows !! k = Some (Z.of_nat nrb) ->
  for_loop nb (scatter_body blockrows blockcols in_data rows cols)
           (indptr0, indices0, data0) = None.
Proof.
  intros Hint Hli Hlast Ek.
  apply (for_loop_fails
           (fun st : list Z * list Z * list F =>
              length (snd (fst st)) = nb
              /\ fst (fst st) !! nrb = Some (Z.of_nat nb)) _ _ _ k).
  - simpl. auto.
  - intros j [[p ix] dt] [[p' ix'] dt'] _ [Hl Hn] E. simpl in Hl, Hn.
    unfold scatter_body in E.
    destruct (rows !! j) as [r|] eqn:Er; [|discriminate]. simpl in E.
    pose proof (proj1 (Forall_lookup _ _) Hint j r Er) as Hr.
    rewrite (to_int_id r) in E by assumption.
    destruct (vec_at p r) as [dest|] eqn:Ed; [|discriminate]. simpl in E.
    destruct (cols !! j) as [c|]; [|discriminate]. simpl in E.
    destruct (store ix dest (to_int c)) as [ix1|] eqn:Es; [|discriminate].
    simpl in E.
    destruct (for_loop _ _ dt) as [dt1|]; [|discriminate]. simpl in E.
    destruct (store p r (to_int (dest + 1))) as [p1|] eqn:Ep; [|discriminate].
    simpl in E. injection E as <- <- <-. simpl.
    split; [apply store_length in Es; congruence|].
    destruct (Z.eq_dec (Z.of_nat nrb) r) as [<-|Hne].
    + apply vec_at_Some in Ed as [_ Ed]. rewrite Nat2Z.id, Hn in Ed.
      injection Ed as <-. rewrite store_None in Es by lia. discriminate.
    + rewrite (store_other _ _ _ _ nrb Ep Hne). assumption.
  - eapply lookup_lt_Some; eassumption.
  - intros [[p ix] dt] [Hl Hn]. simpl in Hl, Hn.
    unfold scatter_body. rewrite Ek. simpl.
    pose proof (proj1 (Forall_lookup _ _) Hint k _ Ek) as Hr.
    rewrite to_int_id by assumption.
    unfold vec_at. destruct (Z.ltb_spec (Z.of_nat nrb) 0); [lia|].
    rewrite Nat2Z.id, Hn. simpl.
    destruct (cols !! k); [|reflexivity]. simpl.
    rewrite (store_None ix) by lia. reflexivity.
Qed.

End BadRow.

(** X10.  The bound on the row indices cannot be dropped: when some block has a
    row index that is negative or not below [n_rows / blockrows],
    [make_bsr_matrix] reads or writes outside one of its arrays (for sizes
    and row indices that fit an [int]). *)
Theorem make_bsr_matrix_bad_row {F}
    (n_rows n_cols blockrows blockcols : nat)
    (in_data : list F) (rows cols : list Z)
    (junk_indptr junk_indices : nat -> Z) (junk_data : nat -> F)
    (k : nat) (r : Z) :
  Forall in_int rows ->
  Z.of_nat (length rows) <= int_max ->
  rows !! k = Some r ->
  ~ (0 <= r < Z.of_nat (FastAssembly.n_row_blocks n_rows blockrows)) ->
  FastAssembly.make_bsr_matrix n_rows n_cols blockrows blockcols in_data
    rows cols junk_indptr junk_indices junk_data
  = None.
Proof.
  intros Hint Hnb Ek Hr. unfold FastAssembly.make_bsr_matrix.
  destruct (Nat.eqb_spec blockrows 0); [reflexivity|]. cbv zeta.
  set (nrb := FastAssembly.n_row_blocks n_rows blockrows) in *.
  set (p0 := FastAssembly.fill_zero n_rows blockrows
               (FastAssembly.make_array junk_indptr (nrb + 1))).
  assert (Hl0 : length p0 = S nrb).
  { subst p0. unfold FastAssembly.fill_zero. fold nrb.
    rewrite length_app, length_replicate, length_drop, make_array_length. lia. }
  unfold FastAssembly.n_blocks.
  destruct (Z.eq_dec r (Z.of_nat nrb)) as [->|Hne].
  - destruct (for_loop (length rows) (FastAssembly.count_body rows) p0)
      as [p1|] eqn:E1; [|reflexivity]. simpl.
    assert (Hl1 : length p1 = S nrb).
    { apply (for_loop_partial (fun s => length s = S nrb) _ _ _ Hl0) in E1;
        [assumption|].
      intros j s s' _ Hs E. apply count_body_length in E. congruence. }
    destruct (for_loop nrb FastAssembly.cumsum_body (p1, 0))
      as [[p2 c]|] eqn:E2; [|reflexivity]. simpl.
    assert (Hl2 : length p2 = S nrb).
    { apply (for_loop_partial
               (fun st : list Z * Z => length (fst st) = S nrb) _ _ (p1, 0) Hl1)
        in E2; [assumption|].
      intros j s s' _ Hs E. apply cumsum_body_length in E. congruence. }
    rewrite store_Some by lia. simpl.
    rewrite scatter_loop_fails with (n_rows := n_rows) (k := k);
      try assumption.
    + reflexivity.
    + apply make_array_length.
    + rewrite Nat2Z.id, list_lookup_insert_eq by lia.
      rewrite to_int_id by (unfold in_int, int_min; lia). reflexivity.
  - rewrite count_loop_fails with (n_rows := n_rows) (blockrows := blockrows)
                                   (k := k) (r := r);
      [reflexivity|assumption..|fold nrb; lia].
Qed.

Lemma make_bsr_matrix_bad_row_witness :
  FastAssembly.make_bsr_matrix 4 4 2 2 Examples.bsr_data [1; 2; 0]
    Examples.bsr_cols (Examples.junk 77) (Examples.junk 88) (Examples.junk 99)
  = None.
Proof.
  refine (make_bsr_matrix_bad_row 4 4 2 2 Examples.bsr_data [1; 2; 0]
            Examples.bsr_cols (Examples.junk 77) (Examples.junk 88)
            (Examples.junk 99) 1 2 _ _ eq_refl _).
  - repeat (apply Forall_cons; split; [vm_compute; intuition discriminate|]).
    apply Forall_nil. exact I.
  - vm_compute. discriminate.
  - vm_compute. intros [_ H]. discriminate H.
Defined.

(** ** direct_eval: what it rejects and what it does not look at *)

Section DirectEvalErrors.
Import Binding.
Context {F : Type} (zero : F).
Variable get_by_name : string -> Result (Kernel F).

(** X5.  [direct_eval] checks the shapes before it looks up the kernel: it
    throws "parameter requires n x 3 array." when one of the two point arrays
    or the two normal arrays is not a two-dimensional array with three
    columns, whatever the kernel name is, known or not; and with four such
    arrays, what the kernel lookup throws is what [direct_eval] throws. *)
Theorem direct_eval_shape_error_first (k_name : string)
    (obs_pts obs_ns src_pts src_ns params : NPArray F) :
  let shapes_ok :=
    is_nx3 obs_pts /\ is_nx3 obs_ns /\ is_nx3 src_pts /\ is_nx3 src_ns in
  (~ shapes_ok ->
   direct_eval zero get_by_name k_name obs_pts obs_ns src_pts src_ns params
   = Throw "parameter requires n x 3 array.")
  /\ (shapes_ok -> forall what,
        get_by_name k_name = Throw what ->
        direct_eval zero get_by_name k_name obs_pts obs_ns src_pts src_ns
          params = Throw what).
Proof.
  intros shapes_ok. subst shapes_ok. unfold direct_eval.
  destruct (is_nx3_dec obs_pts) as [H1|H1];
    [rewrite (check_shape_ok _ H1) | rewrite (check_shape_throw _ H1)];
    simpl; [|split; [reflexivity|tauto]].
  destruct (is_nx3_dec obs_ns) as [H2|H2];
    [rewrite (check_shape_ok _ H2) | rewrite (check_shape_throw _ H2)];
    simpl; [|split; [reflexivity|tauto]].
  destruct (is_nx3_dec src_pts) as [H3|H3];
    [rewrite (check_shape_ok _ H3) | rewrite (check_shape_throw _ H3)];
    simpl; [|split; [reflexivity|tauto]].
  destruct (is_nx3_dec src_ns) as [H4|H4];
    [rewrite (check_shape_ok _ H4) | rewrite (check_shape_throw _ H4)];
    simpl; [|split; [reflexivity|tauto]].
  split; [tauto|].
  intros _ what E. now rewrite E.
Qed.

(** X6.  The batch sizes are the row counts of the two point arrays.  The row
    counts of the normals and the shape of [params] are not looked at:
    changing them, with the same memory behind the arrays, changes
    nothing. *)
Theorem direct_eval_rows_unchecked (k_name : string)
    (obs_pts obs_ns src_pts src_ns params : NPArray F)
    (obs_rows src_rows : Z) (params_shape : list Z) :
  is_nx3 obs_ns -> is_nx3 src_ns ->
  direct_eval zero get_by_name k_name obs_pts
    (mkNPArray [obs_rows; 3] (ptr obs_ns)) src_pts
    (mkNPArray [src_rows; 3] (ptr src_ns))
    (mkNPArray params_shape (ptr params))
  = direct_eval zero get_by_name k_name obs_pts obs_ns src_pts src_ns params.
Proof.
  intros H2 H4. unfold direct_eval.
  rewrite (check_shape_ok obs_ns H2), (check_shape_ok src_ns H4).
  rewrite (check_shape_ok (mkNPArray [obs_rows; 3] (ptr obs_ns)))
    by (split; reflexivity).
  rewrite (check_shape_ok (mkNPArray [src_rows; 3] (ptr src_ns)))
    by (split; reflexivity).
  reflexivity.
Qed.

End DirectEvalErrors.

(** An unknown kernel name with a source array of one dimension, and the
    same name with four arrays of three columns. *)
Example direct_eval_errors_example :
  Binding.direct_eval 0 Examples.one_kernel "nope" Examples.pts_2x3
    Examples.normals_2x3 Examples.q_short Examples.normals_1x3
    Examples.q_short
  = Binding.Throw "parameter requires n x 3 array."
  /\ Binding.direct_eval 0 Examples.one_kernel "nope" Examples.pts_2x3
       Examples.normals_2x3 Examples.src_1x3 Examples.normals_1x3
       Examples.q_short
     = Binding.Throw "invalid kernel name".
Proof. split; reflexivity. Qed.

Lemma direct_eval_rows_unchecked_witness :
  Binding.direct_eval 0 Examples.one_kernel "count" Examples.pts_2x3
    (Binding.mkNPArray [1; 3] (Binding.ptr Examples.normals_2x3))
    Examples.src_1x3
    (Binding.mkNPArray [5; 3] (Binding.ptr Examples.normals_1x3))
    (Binding.mkNPArray [7; 7] (Binding.ptr Examples.q_short))
  = Binding.direct_eval 0 Examples.one_kernel "count" Examples.pts_2x3
      Examples.normals_2x3 Examples.src_1x3 Examples.normals_1x3
      Examples.q_short.
Proof.
  refine (direct_eval_rows_unchecked 0 Examples.one_kernel "count"
            Examples.pts_2x3 Examples.normals_2x3 Examples.src_1x3
            Examples.normals_1x3 Examples.q_short 1 5 [7; 7] _ _);
    split; reflexivity.
Defined.

(** ** adaptive_integrator.cpp: which kernel a name selects *)

Section IntegrateKernel.
Import AdaptiveIntegrator.
Context {Kernel F Tri Result : Type}.
Variables (Ukernel Tkernel Akernel Hkernel default_kernel : Kernel).
Variable integrate_data : @Data Kernel F Tri -> Result.

Lemma assign_lookup (m : gmap string Kernel) (k k' : string) (v : Kernel) :
  assign default_kernel m k v !! k'
  = if decide (k = k') then Some v else m !! k'.
Proof.
  unfold assign, index. rewrite lookup_insert.
  destruct (decide (k = k')) as [->|Hne]; [reflexivity|].
  destruct (m !! k); simpl; [reflexivity|].
  now rewrite lookup_insert_ne.
Qed.

(** X12.  The binding never rejects a kernel name.  "U", "T", "A" and "H" select
    the four kernels; for every other name, [Ks[k_name]] makes a
    value-initialised [Kernel] and that is what is integrated.  [Data] is
    always built with [false] as its second argument. *)
Theorem integrate_kernel_choice (k_name : string) (tri : Tri)
    (tol eps sm pr : F) :
  integrate Ukernel Tkernel Akernel Hkernel default_kernel integrate_data
    k_name tri tol eps sm pr
  = integrate_data
      (mkData tol false
         (kernel_for Ukernel Tkernel Akernel Hkernel default_kernel k_name)
         tri eps sm pr)
  /\ (k_name <> "U" -> k_name <> "T" -> k_name <> "A" -> k_name <> "H" ->
      integrate Ukernel Tkernel Akernel Hkernel default_kernel integrate_data
        k_name tri tol eps sm pr
      = integrate_data (mkData tol false default_kernel tri eps sm pr)).
Proof.
  assert (E : fst (index default_kernel
                     (Ks Ukernel Tkernel Akernel Hkernel default_kernel)
                     k_name)
              = kernel_for Ukernel Tkernel Akernel Hkernel default_kernel
                  k_name).
  { unfold index, Ks, kernel_for. rewrite !assign_lookup, lookup_empty.
    destruct (String.eqb_spec k_name "U") as [->|HU]; [reflexivity|].
    destruct (String.eqb_spec k_name "T") as [->|HT]; [reflexivity|].
    destruct (String.eqb_spec k_name "A") as [->|HA]; [reflexivity|].
    destruct (String.eqb_spec k_name "H") as [->|HH]; [reflexivity|].
    repeat (destruct (decide _) as [<-|?]; [congruence|]). reflexivity. }
  assert (E' : integrate Ukernel Tkernel Akernel Hkernel default_kernel
                 integrate_data k_name tri tol eps sm pr
               = integrate_data
                   (mkData tol false
                      (kernel_for Ukernel Tkernel Akernel Hkernel
                         default_kernel k_name) tri eps sm pr)).
  { unfold integrate. rewrite <- E.
    now destruct (index default_kernel _ k_name). }
  split; [exact E'|].
  intros HU HT HA HH. rewrite E'. unfold kernel_for.
  destruct (String.eqb_spec k_name "U"); [contradiction|].
  destruct (String.eqb_spec k_name "T"); [contradiction|].
  destruct (String.eqb_spec k_name "A"); [contradiction|].
  destruct (String.eqb_spec k_name "H"); [contradiction|].
  reflexivity.
Qed.

End IntegrateKernel.

(** ** count_interactions: a node index outside the tree *)

(** X4.  Without the surface flag the observation node of every row is looked
    up: an index in [obs_n_idxs] that is not an index of [obs_tree.nodes]
    is an out-of-bounds read, whatever the rest of the list holds. *)
Theorem count_interactions_bad_obs_node {F}
    (l : Interactions.CompressedInteractionList)
    (obs_nodes src_nodes : list (Node F)) (src_surf : bool) (n_surf : Z)
    (k : nat) (o : Z) :
  Interactions.obs_n_idxs l !! k = Some o ->
  ~ (0 <= o < Z.of_nat (length obs_nodes)) ->
  Interactions.count_interactions l obs_nodes src_nodes false src_surf n_surf
  = None.
Proof.
  intros Ek Ho. unfold Interactions.count_interactions.
  apply (for_loop_fails (fun _ => True) _ _ _ k); auto.
  - eapply lookup_lt_Some; eassumption.
  - intros s _. unfold Interactions.outer_body. rewrite Ek. simpl.
    unfold Interactions.node_count, vec_at.
    destruct (Z.ltb_spec o 0); [reflexivity|].
    rewrite (lookup_ge_None_2 obs_nodes (Z.to_nat o)) by lia. reflexivity.
Qed.

Lemma count_interactions_bad_obs_node_witness :
  Interactions.count_interactions (Interactions.mkCIL [0; 3] [0; 1; 3] [1; 0; 2])
    Examples.obs_tree Examples.src_tree false false 6
  = None.
Proof.
  refine (count_interactions_bad_obs_node
            (Interactions.mkCIL [0; 3] [0; 1; 3] [1; 0; 2])
            Examples.obs_tree Examples.src_tree false 6 1 3 eq_refl _).
  simpl. lia.
Defined.

(** ** make_bsr_matrix: no blocks *)

(** X11.  With no blocks at all the result is an empty [data], an empty
    [indices] and an [indptr] of [n_rows / blockrows + 1] zeros. *)
Theorem make_bsr_matrix_empty {F} (n_rows n_cols blockrows blockcols : nat)
    (in_data : list F)
    (junk_indptr junk_indices : nat -> Z) (junk_data : nat -> F) :
  blockrows <> O ->
  FastAssembly.make_bsr_matrix n_rows n_cols blockrows blockcols in_data
    [] [] junk_indptr junk_indices junk_data
  = Some ([], [],
          replicate (S (FastAssembly.n_row_blocks n_rows blockrows)) 0).
Proof.
  intros Hbr.
  assert (Hok : FastAssembly.bsr_input_ok n_rows blockrows blockcols in_data
                  [] []).
  { unfold FastAssembly.bsr_input_ok. simpl.
    repeat split; try assumption; try (apply List.Forall_nil); try lia;
      unfold int_max, size_max; lia. }
  destruct Hok as (_ & Hrows & Hcl & Hcols & Hdata & Hnb & Hsize).
  destruct (make_bsr_matrix_run n_rows n_cols blockrows blockcols in_data
              [] [] junk_indptr junk_indices junk_data
              Hrows Hcl Hcols Hdata Hnb Hsize Hbr)
    as (data & indices & indptr & E & Hlen & Hptr & Hli & Hld & _).
  rewrite E. simpl in Hli, Hld.
  apply nil_length_inv in Hli. apply nil_length_inv in Hld. subst.
  do 2 f_equal. apply list_eq. intros i.
  destruct (le_lt_dec i (FastAssembly.n_row_blocks n_rows blockrows)).
  - rewrite Hptr by assumption. rewrite lookup_replicate_2 by lia. reflexivity.
  - rewrite (lookup_ge_None_2 indptr) by lia.
    symmetry. apply lookup_replicate_None. lia.
Qed.

Lemma make_bsr_matrix_empty_witness :
  FastAssembly.make_bsr_matrix 6 4 2 2 Examples.bsr_data [] []
    (Examples.junk 77) (Examples.junk 88) (Examples.junk 99)
  = Some ([], [], [0; 0; 0; 0]).
Proof.
  refine (make_bsr_matrix_empty 6 4 2 2 Examples.bsr_data (Examples.junk 77)
            (Examples.junk 88) (Examples.junk 99) _).
  discriminate.
Defined.
